(** * LU decomposition without pivoting: [getrf_nopivot]

    A shallow embedding of
    [solver/L2/include/hw/MatrixDecomposition/getrf_nopivot.hpp]
    and the properties of its three routines [rowUpdate],
    [getrf_nopivot_core] and [getrf_nopivot].

    Conventions of the embedding.
    - The element type [T] of the template is a type with the three
      operators the code applies to it ([-], [*], [/]): the class [Scalar].
      Nothing else is assumed of it, so every statement that does not
      mention a field holds for [float]/[double] as well as for exact
      rationals.
    - A C array is a list; an access outside the declared bounds has no
      defined behaviour and makes the embedded function return [None].
    - [int] values are integers of [Z]; [/] and [%] are [Z.quot] and
      [Z.rem]; the conversions between [int] and [unsigned int] in
      [rowUpdate] are written out ([to_unsigned], [to_int]).
    - The local arrays [matA] and [pivot] are declared without an
      initialiser.  Their initial contents are explicit arguments
      ([junkA], [junkP]) so that statements can quantify over them. *)

Set Warnings "-notation-overridden,-ambiguous-paths,-deprecated".
From Stdlib Require Import ZArith List Lia Bool QArith Qcanon.
From mathcomp Require Import ssreflect ssrfun ssrbool eqtype ssrnat seq.
From mathcomp Require Import fintype bigop ssralg matrix ssrint rat.
Import ListNotations.

Set Implicit Arguments.
Unset Strict Implicit.
Unset Printing Implicit Defensive.

Local Open Scope Z_scope.

(** ** The element type *)

Class Scalar (T : Type) : Type := {
  ssub : T -> T -> T;
  smul : T -> T -> T;
  sdiv : T -> T -> T
}.

(** ** Partial computations *)

Definition bind {X Y : Type} (o : option X) (k : X -> option Y) : option Y :=
  match o with
  | Some x => k x
  | None => None
  end.

Notation "x <- e ;; k" := (bind e (fun x => k))
  (at level 61, e at next level, right associativity).

(** ** Arrays with checked bounds *)

Definition len {X : Type} (a : list X) : Z := Z.of_nat (length a).

Definition rd {X : Type} (a : list X) (k : Z) : option X :=
  if k <? 0 then None else nth_error a (Z.to_nat k).

Fixpoint upd {X : Type} (a : list X) (k : nat) (x : X) : list X :=
  match a, k with
  | [], _ => []
  | _ :: t, O => x :: t
  | h :: t, S k' => h :: upd t k' x
  end.

Definition wr {X : Type} (a : list X) (k : Z) (x : X) : option (list X) :=
  if (0 <=? k) && (k <? len a) then Some (upd a (Z.to_nat k) x) else None.

Definition rd2 {X : Type} (a : list (list X)) (r c : Z) : option X :=
  row <- rd a r ;; rd row c.

Definition wr2 {X : Type} (a : list (list X)) (r c : Z) (x : X)
  : option (list (list X)) :=
  row <- rd a r ;; row' <- wr row c x ;; wr a r row'.

Definition rd3 {X : Type} (a : list (list (list X))) (i r c : Z) : option X :=
  lane <- rd a i ;; rd2 lane r c.

Definition wr3 {X : Type} (a : list (list (list X))) (i r c : Z) (x : X)
  : option (list (list (list X))) :=
  lane <- rd a i ;; lane' <- wr2 lane r c x ;; wr a i lane'.

(** An array declared without initialiser: [d] cells whose contents are
    whatever [junk] says. *)

Definition fresh1 {X : Type} (d : Z) (junk : Z -> X) : list X :=
  List.map (fun k => junk (Z.of_nat k)) (List.seq 0 (Z.to_nat d)).

Definition fresh2 {X : Type} (d1 d2 : Z) (junk : Z -> Z -> X) : list (list X) :=
  fresh1 d1 (fun r => fresh1 d2 (junk r)).

Definition fresh3 {X : Type} (d1 d2 d3 : Z) (junk : Z -> Z -> Z -> X)
  : list (list (list X)) :=
  fresh1 d1 (fun i => fresh2 d2 d3 (junk i)).

(** ** Counted loops

    [for_loop lo hi body st] is [for (i = lo; i < hi; i++) body], the
    bounds being fixed at loop entry, as in every loop of the source. *)

Fixpoint iter_from {St : Type} (fuel : nat) (i : Z)
    (body : Z -> St -> option St) (st : St) : option St :=
  match fuel with
  | O => Some st
  | S fuel' =>
      match body i st with
      | None => None
      | Some st' => iter_from fuel' (i + 1) body st'
      end
  end.

Definition for_loop {St : Type} (lo hi : Z)
    (body : Z -> St -> option St) (st : St) : option St :=
  iter_from (Z.to_nat (hi - lo)) lo body st.

(** ** Integer conversions of [rowUpdate] *)

Definition to_unsigned (z : Z) : Z := z mod 2 ^ 32.

Definition to_int (z : Z) : Z :=
  let u := z mod 2 ^ 32 in if u <? 2 ^ 31 then u else u - 2 ^ 32.

(** ** The program *)

Section Program.

Context {T : Type} {ST : Scalar T}.

(** [rowUpdate<T, NRCU, NCMAX>(A, pivot, rs, re, cs, ce)]: the loop
    counter [i] is [unsigned], so the bound [nrows * ncols] and the
    operands of [i / ncols + rs] and [i % ncols + cs + 1] are converted
    to [unsigned] and the results back to [int]. *)
Definition rowUpdate (A : list (list T)) (pivot : list T)
    (rs re cs ce : Z) : option (list (list T)) :=
  a00 <- rd pivot cs ;;
  let nrows := re - rs + 1 in
  let ncols := ce - cs in
  for_loop 0 (to_unsigned (nrows * ncols))
    (fun i A =>
       let r := to_int (i / to_unsigned ncols + to_unsigned rs) in
       let c := to_int (i mod to_unsigned ncols + to_unsigned cs + 1) in
       x <- rd2 A r c ;;
       y <- rd2 A r cs ;;
       p <- rd pivot c ;;
       wr2 A r c (ssub x (smul y p)))
    A.

(** [LoopPivot]: every lane receives its own copy of row [s], columns
    [s .. n-1]. *)
Definition LoopPivot (NCU s n : Z) (A : list (list (list T)))
    (pivot : list (list T)) : option (list (list T)) :=
  for_loop s n
    (fun k pivot =>
       for_loop 0 NCU
         (fun r pivot =>
            x <- rd3 A (Z.rem s NCU) (Z.quot s NCU) k ;;
            wr2 pivot r k x)
         pivot)
    pivot.

(** [LoopDiv]: column [s] of the rows [s+1 .. m-1] is divided by [a00]. *)
Definition LoopDiv (NCU s m : Z) (a00 : T) (A : list (list (list T)))
  : option (list (list (list T))) :=
  for_loop (s + 1) m
    (fun j A =>
       let i := Z.rem j NCU in
       let r := Z.quot j NCU in
       x <- rd3 A i r s ;;
       wr3 A i r s (sdiv x a00))
    A.

(** [LoopMat]: one call of [rowUpdate] per lane. *)
Definition LoopMat (NRCU NCMAX NCU s : Z) (pivot : list (list T))
    (A : list (list (list T))) : option (list (list (list T))) :=
  for_loop 0 NCU
    (fun i A =>
       let rs := if i <=? Z.rem s NCU then Z.quot s NCU + 1 else Z.quot s NCU in
       let re := NRCU - 1 in
       let cs := s in
       let ce := NCMAX - 1 in
       Ai <- rd A i ;;
       Pi <- rd pivot i ;;
       Ai' <- rowUpdate Ai Pi rs re cs ce ;;
       wr A i Ai')
    A.

(** The body of [LoopSweeps] for one value of [s].  [junk] is the
    content of the local array [pivot] at its declaration. *)
Definition sweep (NRCU NCMAX NCU m n : Z) (junk : Z -> Z -> T) (s : Z)
    (A : list (list (list T))) : option (list (list (list T))) :=
  pivot <- LoopPivot NCU s n A (fresh2 NCU NCMAX junk) ;;
  a00 <- rd2 pivot 0 s ;;
  A1 <- LoopDiv NCU s m a00 A ;;
  LoopMat NRCU NCMAX NCU s pivot A1.

(** [getrf_nopivot_core<T, NRCU, NCMAX, NCU>(m, n, A, lda)]. *)
Definition getrf_nopivot_core (NRCU NCMAX NCU : Z) (junkP : Z -> Z -> Z -> T)
    (m n : Z) (A : list (list (list T))) (lda : Z)
  : option (list (list (list T))) :=
  for_loop 0 (m - 1) (fun s A => sweep NRCU NCMAX NCU m n (junkP s) s A) A.

Definition LoopRead (NCU m n : Z) (A : list T) (lda : Z)
    (matA : list (list (list T))) : option (list (list (list T))) :=
  for_loop 0 m
    (fun r matA =>
       for_loop 0 n
         (fun c matA =>
            x <- rd A (lda * r + c) ;;
            wr3 matA (Z.rem r NCU) (Z.quot r NCU) c x)
         matA)
    matA.

Definition LoopWrite (NCU m n lda : Z) (matA : list (list (list T)))
    (A : list T) : option (list T) :=
  for_loop 0 m
    (fun r A =>
       for_loop 0 n
         (fun c A =>
            x <- rd3 matA (Z.rem r NCU) (Z.quot r NCU) c ;;
            wr A (r * lda + c) x)
         A)
    A.

(** [getrf_nopivot<T, NRMAX, NCMAX, NCU>(m, n, A, lda, info)].  The
    result is the pair of the external buffer and of [info] on return. *)
Definition getrf_nopivot (NRMAX NCMAX NCU : Z)
    (junkA : Z -> Z -> Z -> T) (junkP : Z -> Z -> Z -> T)
    (m n : Z) (A : list T) (lda : Z) (info : Z) : option (list T * Z) :=
  let NRCU := Z.quot (NRMAX + NCU - 1) NCU in
  let matA := fresh3 NCU NRCU NCMAX junkA in
  matA <- LoopRead NCU m n A lda matA ;;
  matA <- getrf_nopivot_core NRCU NCMAX NCU junkP m n matA lda ;;
  A' <- LoopWrite NCU m n lda matA A ;;
  Some (A', info).

End Program.

(** * Specification vocabulary

    The definitions the statements below are written with.  None of
    them is part of the program. *)

(** ** Arrays seen as functions of their cells *)

Definition view1 {X : Type} (d : Z) (a : list X) (f : Z -> X) : Prop :=
  forall k, 0 <= k < d -> rd a k = Some (f k).

Definition view2 {X : Type} (d1 d2 : Z) (a : list (list X))
    (f : Z -> Z -> X) : Prop :=
  forall r c, 0 <= r < d1 -> 0 <= c < d2 -> rd2 a r c = Some (f r c).

Definition view3 {X : Type} (d1 d2 d3 : Z) (a : list (list (list X)))
    (f : Z -> Z -> Z -> X) : Prop :=
  forall i r c, 0 <= i < d1 -> 0 <= r < d2 -> 0 <= c < d3 ->
    rd3 a i r c = Some (f i r c).

(** Lane [j % NCU] holds row [j] at local offset [j / NCU]; conversely
    the cell at offset [r] of lane [i] is row [r * NCU + i]. *)
Definition grow (NCU i r : Z) : Z := r * NCU + i.

(** The row [j] of the matrix inside the lane buffer: [A[j % NCU][j / NCU][c]]. *)
Definition cell {T : Type} (NCU : Z) (A : list (list (list T))) (j c : Z)
  : option T :=
  rd3 A (Z.rem j NCU) (Z.quot j NCU) c.

(** A template instance the compiler accepts: positive sizes, and a lane
    buffer small enough for the [int] product [nrows * ncols] of
    [rowUpdate]. *)
Definition template_ok (NRMAX NCMAX NCU : Z) : Prop :=
  1 <= NCU /\ 1 <= NRMAX /\ 1 <= NCMAX /\ NRMAX * NCMAX < 2 ^ 31.

(** Distinct cells of the matrix have distinct offsets in the external
    buffer: the rows do not overlap. *)
Definition rows_disjoint (m n lda : Z) : Prop :=
  forall r c r' c', 0 <= r < m -> 0 <= c < n -> 0 <= r' < m -> 0 <= c' < n ->
    r * lda + c = r' * lda + c' -> r = r' /\ c = c'.

Section Vocabulary.

Context {T : Type} {ST : Scalar T}.

(** The external buffer holds every cell of the [m x n] matrix. *)
Definition ext_ok (m n lda : Z) (A : list T) : Prop :=
  forall r c, 0 <= r < m -> 0 <= c < n -> 0 <= lda * r + c < len A.

(** The matrix an external buffer holds, [d] standing for the cells the
    buffer does not have. *)
Definition ext_fun (d : T) (lda : Z) (A : list T) : Z -> Z -> T :=
  fun r c => match rd A (lda * r + c) with Some x => x | None => d end.

(** ** The stages of a sweep, as functions of the cells *)

(** What [rowUpdate] leaves in the cell [(r, c)] of a lane. *)
Definition row_fun (rs cs : Z) (p : Z -> T) (f : Z -> Z -> T) : Z -> Z -> T :=
  fun r c =>
    if (rs <=? r) && (cs <? c) then ssub (f r c) (smul (f r cs) (p c))
    else f r c.

(** The copy of row [s] lane [i] works with: columns [s .. n-1] come
    from the matrix, the others keep what the array held at its
    declaration. *)
Definition pivot_fun (NCU s n : Z) (junk : Z -> Z -> T)
    (f : Z -> Z -> Z -> T) : Z -> Z -> T :=
  fun i c =>
    if (s <=? c) && (c <? n) then f (Z.rem s NCU) (Z.quot s NCU) c
    else junk i c.

Definition div_fun (NCU s m : Z) (a00 : T) (f : Z -> Z -> Z -> T)
  : Z -> Z -> Z -> T :=
  fun i r c =>
    if (c =? s) && (s <? grow NCU i r) && (grow NCU i r <? m)
    then sdiv (f i r c) a00 else f i r c.

Definition upd_fun (NCU s : Z) (p : Z -> Z -> T) (f : Z -> Z -> Z -> T)
  : Z -> Z -> Z -> T :=
  fun i r c =>
    if (s <? grow NCU i r) && (s <? c)
    then ssub (f i r c) (smul (f i r s) (p i c)) else f i r c.

Definition sweep_fun (NCU m n : Z) (junk : Z -> Z -> T) (s : Z)
    (f : Z -> Z -> Z -> T) : Z -> Z -> Z -> T :=
  let p := pivot_fun NCU s n junk f in
  upd_fun NCU s p (div_fun NCU s m (p 0 s) f).

(** The lane buffer after [LoopRead]. *)
Definition load_fun (NCU m n : Z) (a : Z -> Z -> T)
    (junk : Z -> Z -> Z -> T) : Z -> Z -> Z -> T :=
  fun i r c =>
    if (grow NCU i r <? m) && (c <? n) then a (grow NCU i r) c
    else junk i r c.

(** ** The recurrence on the logical matrix

    A lane buffer with cells [f] holds the matrix [logical NCU f].
    [lu_step s] is the elimination step [s] of right-looking LU written
    on the matrix itself, without lanes and without padding. *)

Definition logical (NCU : Z) (f : Z -> Z -> Z -> T) : Z -> Z -> T :=
  fun j c => f (Z.rem j NCU) (Z.quot j NCU) c.

Definition agree (m n : Z) (M1 M2 : Z -> Z -> T) : Prop :=
  forall j c, 0 <= j < m -> 0 <= c < n -> M1 j c = M2 j c.

Definition lu_step (s : Z) (M : Z -> Z -> T) : Z -> Z -> T :=
  fun j c =>
    if s <? j then
      if c =? s then sdiv (M j s) (M s s)
      else if s <? c
           then ssub (M j c) (smul (sdiv (M j s) (M s s)) (M s c))
           else M j c
    else M j c.

(** Steps [0 .. k-1], in this order. *)
Fixpoint lu_steps (k : nat) (M : Z -> Z -> T) : Z -> Z -> T :=
  match k with
  | O => M
  | S k' => lu_step (Z.of_nat k') (lu_steps k' M)
  end.

Definition lu_sweep (m : Z) (M : Z -> Z -> T) : Z -> Z -> T :=
  lu_steps (Z.to_nat (m - 1)) M.

(** ** The division stage, as C2 describes it

    The division stage of step [s] on the lane buffer [A] runs, its
    divisor [a00] is the diagonal entry [A[s][s]] read before any
    division, every entry [A[j][s]] with [s < j < m] is replaced by its
    quotient by [a00], and no other cell changes. *)
Definition division_stage (NRCU NCMAX NCU m n : Z) (junk : Z -> Z -> T)
    (s : Z) (A : list (list (list T))) : Prop :=
  exists P a00 A1,
    LoopPivot NCU s n A (fresh2 NCU NCMAX junk) = Some P /\
    rd2 P 0 s = Some a00 /\
    LoopDiv NCU s m a00 A = Some A1 /\
    cell NCU A s s = Some a00 /\
    (forall j, s < j < m ->
       cell NCU A1 j s = (x <- cell NCU A j s ;; Some (sdiv x a00))) /\
    (forall i r c, 0 <= i < NCU -> 0 <= r < NRCU -> 0 <= c < NCMAX ->
       ~ (c = s /\ s < grow NCU i r < m) -> rd3 A1 i r c = rd3 A i r c).

End Vocabulary.

(** ** Blocks, shapes and buffers *)

(** An array of [d1] rows of [d2] cells each: the declared dimensions,
    which decide what an access outside the array is. *)
Definition shape2 {X : Type} (d1 d2 : Z) (a : list (list X)) : Prop :=
  len a = d1 /\ forall r row, rd a r = Some row -> len row = d2.

Section Blocks.

Context {T : Type} {ST : Scalar T}.

(** What [rowUpdate] leaves in the cell [(r, c)] of a lane when it is
    called on the block of the rows [rs .. re] and of the columns
    [cs+1 .. ce]; the operands are the cells before the call. *)
Definition block_fun (rs re cs ce : Z) (p : Z -> T) (f : Z -> Z -> T)
  : Z -> Z -> T :=
  fun r c =>
    if (rs <=? r) && (r <=? re) && (cs <? c) && (c <=? ce)
    then ssub (f r c) (smul (f r cs) (p c)) else f r c.

(** The external buffer [A] holds the [m x n] matrix [a], row [r]
    starting at offset [lda * r]. *)
Definition holds (m n lda : Z) (A : list T) (a : Z -> Z -> T) : Prop :=
  forall r c, 0 <= r < m -> 0 <= c < n -> rd A (lda * r + c) = Some (a r c).

End Blocks.

(** ** The factors read off the result *)

(** What the product [L * U] needs besides the operators of [Scalar]:
    zero, one and addition. *)
Class Semiring (T : Type) : Type := {
  szero : T;
  sone : T;
  sadd : T -> T -> T
}.

Section Factors.

Context {T : Type} {ST : Scalar T} {SR : Semiring T}.

(** [L]: the strict lower part of the buffer, with the unit diagonal
    the buffer does not store. *)
Definition Lmat (out : Z -> Z -> T) (i k : Z) : T :=
  if k <? i then out i k else if k =? i then sone else szero.

(** [U]: the upper part of the buffer, diagonal included. *)
Definition Umat (out : Z -> Z -> T) (k j : Z) : T :=
  if k <=? j then out k j else szero.

Fixpoint dot (k : nat) (u v : Z -> T) : T :=
  match k with
  | O => szero
  | S k' => sadd (dot k' u v) (smul (u (Z.of_nat k')) (v (Z.of_nat k')))
  end.

(** The entry [(i, j)] of [L * U], [L] being [m x min(m,n)] and [U]
    being [min(m,n) x n]. *)
Definition LU_product (m n : Z) (out : Z -> Z -> T) (i j : Z) : T :=
  dot (Z.to_nat (Z.min m n)) (Lmat out i) (fun k => Umat out k j).

End Factors.

(** ** Element types with exact arithmetic *)

(** The rationals of the Standard Library, for the runs on concrete
    matrices.  A quotient by zero is a rational like any other ([0]): a
    zero pivot does not stop a run. *)

#[export] Instance Scalar_Qc : Scalar Qc :=
  {| ssub := Qcminus; smul := Qcmult; sdiv := Qcdiv |}.

#[export] Instance Semiring_Qc : Semiring Qc :=
  {| szero := Q2Qc 0; sone := Q2Qc 1; sadd := Qcplus |}.

Definition qc (a : Z) (b : positive) : Qc := Q2Qc (a # b).

Definition Qc_list_eqb (u v : list Qc) : bool :=
  (length u =? length v)%nat &&
  forallb (fun p => Qeq_bool (this (fst p)) (this (snd p))) (combine u v).

Definition run_eqb (o : option (list Qc * Z)) (v : list Qc) (info : Z) : bool :=
  match o with
  | Some (u, i) => Qc_list_eqb u v && (i =? info)
  | None => false
  end.

(** Any field of MathComp, for the statements that need the laws of a
    field and determinants. *)

#[export] Instance Scalar_field (F : fieldType) : Scalar F :=
  {| ssub := fun x y => (x - y)%R;
     smul := fun x y => (x * y)%R;
     sdiv := fun x y => (x / y)%R |}.

#[export] Instance Semiring_field (F : fieldType) : Semiring F :=
  {| szero := 0%R; sone := 1%R; sadd := fun x y => (x + y)%R |}.

Section FieldVocabulary.

Variable F : fieldType.

(** [sum_{0 <= k < K} M[i][k] * M[k][j]] *)
Definition below (K : Z) (M : Z -> Z -> F) (i j : Z) : F :=
  dot (Z.to_nat K) (fun k => M i k) (fun k => M k j).

(** The part of [L * U] the steps [0 .. s-1] have accumulated at [(i, j)]. *)
Definition partial_product (s : Z) (M : Z -> Z -> F) (i j : Z) : F :=
  sadd (below (Z.min (Z.min i j) s) M i j)
       (if (j <? s) && (j <? i) then smul (M i j) (M j j) else M i j).

(** The leading principal minor of order [k]. *)
Definition leading_minor (k : nat) (a : Z -> Z -> F) : F :=
  (\det (\matrix_(i < k, j < k) a (Z.of_nat i) (Z.of_nat j)))%R.

End FieldVocabulary.

(** ** Concrete matrices *)

Definition zeroQ : Z -> Z -> Z -> Qc := fun _ _ _ => qc 0 1.

Definition sevenQ : Z -> Z -> Z -> Qc := fun _ _ _ => qc 7 1.

Definition matrix_of (lda : Z) (A : list Qc) : Z -> Z -> Qc :=
  ext_fun (qc 0 1) lda A.

(** The first example matrix of the specification, row-major. *)
Definition A3 : list Qc :=
  [qc 4 1; qc 3 1; qc 2 1;
   qc 2 1; qc 1 1; qc 1 1;
   qc 1 1; qc 1 1; qc 1 1].

(** The buffer the specification expects for [A3]. *)
Definition A3_claimed : list Qc :=
  [qc 4 1; qc 3 1; qc 2 1;
   qc 1 2; qc (-1) 2; qc 0 1;
   qc 1 4; qc 1 1; qc 0 1].

(** The buffer the routine returns for [A3]. *)
Definition A3_out : list Qc :=
  [qc 4 1; qc 3 1; qc 2 1;
   qc 1 2; qc (-1) 2; qc 0 1;
   qc 1 4; qc (-1) 2; qc 1 2].

(** The companion example, and the buffer the routine returns for it. *)
Definition A2 : list Qc := [qc 4 1; qc 3 1; qc 6 1; qc 3 1].

Definition A2_out : list Qc := [qc 4 1; qc 3 1; qc 3 2; qc (-3) 2].

(** C4 as the specification states it: the run on [A3] returns
    [A3_claimed], whose last pivot is zero, and the run on [A2] returns
    factors whose product is [A2]. *)
Definition concrete_scenarios_claimed : Prop :=
  getrf_nopivot 3 3 1 zeroQ zeroQ 3 3 A3 3 0 = Some (A3_claimed, 0) /\
  exists out, getrf_nopivot 2 2 1 zeroQ zeroQ 2 2 A2 2 0 = Some (out, 0) /\
    forall i j, 0 <= i < 2 -> 0 <= j < 2 ->
      LU_product 2 2 (matrix_of 2 out) i j = matrix_of 2 A2 i j.

(** A matrix whose first pivot is zero. *)
Definition A0 : list Qc := [qc 0 1; qc 1 1; qc 1 1; qc 1 1].

(** A [2 x 2] matrix stored with [lda = 3]: the cells at offsets 2 and 5
    are not part of it. *)
Definition A2_padded : list Qc :=
  [qc 4 1; qc 3 1; qc 9 1; qc 6 1; qc 3 1; qc 9 1].

Definition A2_padded_out : list Qc :=
  [qc 4 1; qc 3 1; qc 9 1; qc 3 2; qc (-3) 2; qc 9 1].

(** [A3] in two lanes of two rows, the fourth row being padding. *)
Definition A3_lanes : Z -> Z -> Z -> Qc :=
  fun i r c => matrix_of 3 A3 (grow 2 i r) c.

Definition B3 : list (list (list Qc)) := fresh3 2 2 3 A3_lanes.

(** A lane of two rows of three columns and a pivot row for it. *)
Definition lane23 : list (list Qc) := fresh2 2 3 (fun r c => qc (3 * r + c + 1) 1).

Definition pivot3 : list Qc := fresh1 3 (fun c => qc (c + 1) 1).

(** [[1,1],[1,2]] over the rationals of MathComp: both leading principal
    minors are 1. *)
Definition Aq : list rat := [1%R; 1%R; 1%R; (1 + 1)%R].


(** The same matrix with two more rows: a [4 x 2] matrix whose leading
    principal minors are those of [Aq]. *)
Definition Aq_tall : list rat := Aq ++ [0%R; 0%R; 0%R; 0%R].

(** * Facts about arrays *)

Section ArrayFacts.

Context {X : Type}.

Lemma len_nonneg (a : list X) : 0 <= len a.
Proof. unfold len. lia. Qed.

Lemma rd_Some_iff (a : list X) (k : Z) :
  (exists x, rd a k = Some x) <-> 0 <= k < len a.
Proof.
  unfold rd, len. destruct (Z.ltb_spec k 0) as [Hk|Hk].
  - split; [intros [x Hx]; discriminate | lia].
  - split.
    + intros [x Hx].
      assert (nth_error a (Z.to_nat k) <> None) as Hn by congruence.
      apply nth_error_Some in Hn. lia.
    + intros Hr. destruct (nth_error a (Z.to_nat k)) as [x|] eqn:E.
      * now exists x.
      * apply nth_error_None in E. lia.
Qed.

Lemma rd_in_range (a : list X) (k : Z) (x : X) :
  rd a k = Some x -> 0 <= k < len a.
Proof. intros H. apply rd_Some_iff. now exists x. Qed.

Lemma rd_out_of_range (a : list X) (k : Z) :
  ~ (0 <= k < len a) -> rd a k = None.
Proof.
  intros H. destruct (rd a k) as [x|] eqn:E; [|reflexivity].
  exfalso. apply H. eapply rd_in_range; eauto.
Qed.

Lemma upd_length (a : list X) (k : nat) (x : X) : length (upd a k x) = length a.
Proof.
  revert k. induction a as [|h t IH]; intros [|k]; simpl; auto.
Qed.

Lemma nth_error_upd (a : list X) (k k' : nat) (x : X) :
  (k < length a)%coq_nat ->
  nth_error (upd a k x) k' = if Nat.eqb k' k then Some x else nth_error a k'.
Proof.
  revert k k'. induction a as [|h t IH]; intros k k' Hk; simpl in Hk.
  - lia.
  - destruct k as [|k]; destruct k' as [|k']; simpl; auto.
    apply IH. lia.
Qed.

Lemma wr_inv (a a' : list X) (k : Z) (x : X) :
  wr a k x = Some a' -> 0 <= k < len a /\ a' = upd a (Z.to_nat k) x.
Proof.
  unfold wr. destruct (Z.leb_spec 0 k); destruct (Z.ltb_spec k (len a));
    simpl; intros Hw; inversion Hw; split; auto; lia.
Qed.

Lemma wr_Some (a : list X) (k : Z) (x : X) :
  0 <= k < len a -> wr a k x = Some (upd a (Z.to_nat k) x).
Proof.
  intros Hr. unfold wr.
  destruct (Z.leb_spec 0 k); destruct (Z.ltb_spec k (len a)); simpl; auto; lia.
Qed.

Lemma wr_None (a : list X) (k : Z) (x : X) :
  ~ (0 <= k < len a) -> wr a k x = None.
Proof.
  intros Hr. unfold wr.
  destruct (Z.leb_spec 0 k); destruct (Z.ltb_spec k (len a)); simpl; auto; lia.
Qed.

Lemma len_wr (a a' : list X) (k : Z) (x : X) :
  wr a k x = Some a' -> len a' = len a.
Proof.
  intros H. apply wr_inv in H. destruct H as [_ ->].
  unfold len. now rewrite upd_length.
Qed.

Lemma rd_wr (a a' : list X) (k k' : Z) (x : X) :
  wr a k x = Some a' ->
  rd a' k' = if k' =? k then Some x else rd a k'.
Proof.
  intros H. apply wr_inv in H. destruct H as [Hk ->].
  unfold rd. destruct (Z.ltb_spec k' 0) as [H0|H0].
  - destruct (Z.eqb_spec k' k); [lia | reflexivity].
  - assert (Z.to_nat k < length a)%coq_nat as Hlt by (unfold len in Hk; lia).
    rewrite (nth_error_upd (Z.to_nat k') x Hlt).
    destruct (Z.eqb_spec k' k) as [->|Hne].
    + now rewrite Nat.eqb_refl.
    + destruct (Nat.eqb_spec (Z.to_nat k') (Z.to_nat k)); [lia | reflexivity].
Qed.

Lemma rd_fresh1 (d : Z) (junk : Z -> X) (k : Z) :
  rd (fresh1 d junk) k =
  if (0 <=? k) && (k <? d) then Some (junk k) else None.
Proof.
  unfold rd, fresh1.
  destruct (Z.ltb_spec k 0) as [H0|H0].
  - destruct (Z.leb_spec 0 k); [lia | reflexivity].
  - destruct (Z.leb_spec 0 k); [|lia]. simpl.
    destruct (Z.ltb_spec k d) as [Hd|Hd].
    + rewrite nth_error_map nth_error_seq.
      destruct (Nat.ltb_spec (Z.to_nat k) (Z.to_nat d)); [|lia].
      simpl. now rewrite Z2Nat.id.
    + apply nth_error_None. rewrite length_map length_seq. lia.
Qed.

End ArrayFacts.

Section ArrayFacts2.

Context {X : Type}.

Lemma rd2_wr2 (a a' : list (list X)) (r c r' c' : Z) (x : X) :
  wr2 a r c x = Some a' ->
  rd2 a' r' c' = if (r' =? r) && (c' =? c) then Some x else rd2 a r' c'.
Proof.
  unfold wr2, rd2. destruct (rd a r) as [row|] eqn:Er; simpl; [|discriminate].
  destruct (wr row c x) as [row'|] eqn:Ew; simpl; [|discriminate].
  intros Ha. rewrite (rd_wr r' Ha).
  destruct (Z.eqb_spec r' r) as [->|Hr]; simpl; [|reflexivity].
  rewrite (rd_wr c' Ew) Er. simpl. reflexivity.
Qed.

Lemma wr2_Some (a : list (list X)) (r c : Z) (x y : X) :
  rd2 a r c = Some y -> exists a', wr2 a r c x = Some a'.
Proof.
  unfold wr2, rd2. destruct (rd a r) as [row|] eqn:Er; simpl; [|discriminate].
  intros Hc. apply rd_in_range in Hc. rewrite (wr_Some x Hc). simpl.
  apply rd_in_range in Er. rewrite (wr_Some _ Er). eauto.
Qed.

Lemma rd2_row (a : list (list X)) (r : Z) (row : list X) (c : Z) :
  rd a r = Some row -> rd2 a r c = rd row c.
Proof. unfold rd2. now intros ->. Qed.

Lemma rd3_lane (a : list (list (list X))) (i : Z) (lane : list (list X)) (r c : Z) :
  rd a i = Some lane -> rd3 a i r c = rd2 lane r c.
Proof. unfold rd3. now intros ->. Qed.

Lemma rd3_wr_lane (a a' : list (list (list X))) (i : Z) (lane : list (list X))
    (i' r c : Z) :
  wr a i lane = Some a' ->
  rd3 a' i' r c = if i' =? i then rd2 lane r c else rd3 a i' r c.
Proof.
  intros Hw. unfold rd3. rewrite (rd_wr i' Hw).
  now destruct (Z.eqb_spec i' i).
Qed.

Lemma rd3_wr3 (a a' : list (list (list X))) (i r c i' r' c' : Z) (x : X) :
  wr3 a i r c x = Some a' ->
  rd3 a' i' r' c' =
  if (i' =? i) && (r' =? r) && (c' =? c) then Some x else rd3 a i' r' c'.
Proof.
  unfold wr3. destruct (rd a i) as [lane|] eqn:Ei; simpl; [|discriminate].
  destruct (wr2 lane r c x) as [lane'|] eqn:Ew; simpl; [|discriminate].
  intros Ha. rewrite (rd3_wr_lane i' r' c' Ha).
  destruct (Z.eqb_spec i' i) as [->|Hi]; simpl; [|reflexivity].
  rewrite (rd2_wr2 r' c' Ew) (rd3_lane r' c' Ei). reflexivity.
Qed.

Lemma wr3_Some (a : list (list (list X))) (i r c : Z) (x y : X) :
  rd3 a i r c = Some y -> exists a', wr3 a i r c x = Some a'.
Proof.
  unfold wr3, rd3. destruct (rd a i) as [lane|] eqn:Ei; simpl; [|discriminate].
  intros Hc. destruct (wr2_Some x Hc) as [lane' ->]. simpl.
  apply rd_in_range in Ei. rewrite (wr_Some _ Ei). eauto.
Qed.

Lemma rd2_fresh2 (d1 d2 : Z) (junk : Z -> Z -> X) (r c : Z) :
  rd2 (fresh2 d1 d2 junk) r c =
  if (0 <=? r) && (r <? d1) && (0 <=? c) && (c <? d2)
  then Some (junk r c) else None.
Proof.
  unfold rd2, fresh2. rewrite rd_fresh1.
  destruct ((0 <=? r) && (r <? d1)); simpl; [|reflexivity].
  rewrite rd_fresh1. now destruct (0 <=? c); simpl.
Qed.

Lemma rd3_fresh3 (d1 d2 d3 : Z) (junk : Z -> Z -> Z -> X) (i r c : Z) :
  rd3 (fresh3 d1 d2 d3 junk) i r c =
  if (0 <=? i) && (i <? d1) && ((0 <=? r) && (r <? d2) && (0 <=? c) && (c <? d3))
  then Some (junk i r c) else None.
Proof.
  unfold rd3, fresh3. rewrite rd_fresh1.
  destruct ((0 <=? i) && (i <? d1)); simpl; [|reflexivity].
  apply rd2_fresh2.
Qed.

(** A freshly declared array is seen as its initial contents. *)

Lemma view2_fresh2 (d1 d2 : Z) (junk : Z -> Z -> X) :
  view2 d1 d2 (fresh2 d1 d2 junk) junk.
Proof.
  intros r c Hr Hc. rewrite rd2_fresh2.
  destruct (Z.leb_spec 0 r); [|lia]. destruct (Z.ltb_spec r d1); [|lia].
  destruct (Z.leb_spec 0 c); [|lia]. destruct (Z.ltb_spec c d2); [|lia].
  reflexivity.
Qed.

Lemma view3_fresh3 (d1 d2 d3 : Z) (junk : Z -> Z -> Z -> X) :
  view3 d1 d2 d3 (fresh3 d1 d2 d3 junk) junk.
Proof.
  intros i r c Hi Hr Hc. rewrite rd3_fresh3.
  destruct (Z.leb_spec 0 i); [|lia]. destruct (Z.ltb_spec i d1); [|lia].
  destruct (Z.leb_spec 0 r); [|lia]. destruct (Z.ltb_spec r d2); [|lia].
  destruct (Z.leb_spec 0 c); [|lia]. destruct (Z.ltb_spec c d3); [|lia].
  reflexivity.
Qed.

Lemma view2_row (d1 d2 : Z) (a : list (list X)) (f : Z -> Z -> X) (r : Z) :
  1 <= d2 -> view2 d1 d2 a f -> 0 <= r < d1 ->
  exists row, rd a r = Some row /\ view1 d2 row (f r).
Proof.
  intros Hd Hv Hr. pose proof (Hv r 0 Hr ltac:(lia)) as H0.
  unfold rd2 in H0. destruct (rd a r) as [row|] eqn:Er; [|discriminate].
  exists row. split; [reflexivity|]. intros c Hc.
  rewrite -(rd2_row c Er). now apply Hv.
Qed.

Lemma view3_lane (d1 d2 d3 : Z) (a : list (list (list X)))
    (f : Z -> Z -> Z -> X) (i : Z) :
  1 <= d2 -> 1 <= d3 -> view3 d1 d2 d3 a f -> 0 <= i < d1 ->
  exists lane, rd a i = Some lane /\ view2 d2 d3 lane (f i).
Proof.
  intros Hd2 Hd3 Hv Hi. pose proof (Hv i 0 0 Hi ltac:(lia) ltac:(lia)) as H0.
  unfold rd3 in H0. destruct (rd a i) as [lane|] eqn:Ei; [|discriminate].
  exists lane. split; [reflexivity|]. intros r c Hr Hc.
  rewrite -(rd3_lane r c Ei). now apply Hv.
Qed.

End ArrayFacts2.

(** * Facts about counted loops *)

Section LoopFacts.

Context {St : Type}.

Lemma for_loop_empty (lo hi : Z) (body : Z -> St -> option St) (st : St) :
  hi <= lo -> for_loop lo hi body st = Some st.
Proof.
  intros H. unfold for_loop. replace (Z.to_nat (hi - lo)) with O by lia.
  reflexivity.
Qed.

Lemma for_loop_unfold (lo hi : Z) (body : Z -> St -> option St) (st : St) :
  lo < hi ->
  for_loop lo hi body st = (st' <- body lo st ;; for_loop (lo + 1) hi body st').
Proof.
  intros H. unfold for_loop.
  replace (Z.to_nat (hi - lo)) with (S (Z.to_nat (hi - (lo + 1)))) by lia.
  simpl. now destruct (body lo st).
Qed.

(** Total correctness: an invariant every iteration re-establishes. *)
Lemma for_loop_inv (Inv : Z -> St -> Prop) (lo hi : Z)
    (body : Z -> St -> option St) (st : St) :
  lo <= hi ->
  Inv lo st ->
  (forall i st, lo <= i < hi -> Inv i st ->
     exists st', body i st = Some st' /\ Inv (i + 1) st') ->
  exists st', for_loop lo hi body st = Some st' /\ Inv hi st'.
Proof.
  intros Hle. remember (Z.to_nat (hi - lo)) as k eqn:Ek.
  revert lo st Hle Ek. induction k as [|k IH]; intros lo st Hle Ek H0 Hstep.
  - assert (lo = hi) as -> by lia. exists st. split; [|assumption].
    apply for_loop_empty. lia.
  - assert (lo < hi) as Hlt by lia.
    destruct (Hstep lo st ltac:(lia) H0) as [st1 [Hb H1]].
    destruct (IH (lo + 1) st1 ltac:(lia) ltac:(lia) H1) as [st' [Hl H']].
    + intros i st2 Hi. apply Hstep. lia.
    + exists st'. split; [|assumption].
      rewrite (for_loop_unfold body st Hlt) Hb. exact Hl.
Qed.

(** Partial correctness: what a loop that returned has established. *)
Lemma for_loop_post (Inv : Z -> St -> Prop) (lo hi : Z)
    (body : Z -> St -> option St) (st st' : St) :
  lo <= hi ->
  Inv lo st ->
  (forall i st st1, lo <= i < hi -> Inv i st -> body i st = Some st1 ->
     Inv (i + 1) st1) ->
  for_loop lo hi body st = Some st' ->
  Inv hi st'.
Proof.
  intros Hle. remember (Z.to_nat (hi - lo)) as k eqn:Ek.
  revert lo st Hle Ek. induction k as [|k IH]; intros lo st Hle Ek H0 Hstep Hrun.
  - assert (lo = hi) as -> by lia.
    rewrite for_loop_empty in Hrun; [lia|]. now inversion Hrun; subst.
  - assert (lo < hi) as Hlt by lia.
    rewrite (for_loop_unfold body st Hlt) in Hrun.
    destruct (body lo st) as [st1|] eqn:Hb; simpl in Hrun; [|discriminate].
    apply (IH (lo + 1) st1); try lia; auto.
    + apply (Hstep lo st); auto. lia.
    + intros i st2 st3 Hi. apply Hstep. lia.
Qed.

(** A loop one of whose iterations cannot succeed does not return. *)
Lemma for_loop_fail (lo hi k : Z) (body : Z -> St -> option St) (st : St) :
  lo <= k < hi -> (forall st, body k st = None) ->
  for_loop lo hi body st = None.
Proof.
  intros Hk Hf. remember (Z.to_nat (k - lo)) as d eqn:Ed.
  revert lo st Hk Ed. induction d as [|d IH]; intros lo st Hk Ed.
  - assert (lo = k) as -> by lia.
    rewrite for_loop_unfold; [lia|]. now rewrite Hf.
  - rewrite for_loop_unfold; [lia|].
    destruct (body lo st) as [st1|]; simpl; [|reflexivity].
    apply IH; lia.
Qed.

End LoopFacts.

(** * Integer facts *)

Lemma to_unsigned_small (z : Z) : 0 <= z < 2 ^ 32 -> to_unsigned z = z.
Proof. intros H. unfold to_unsigned. now apply Z.mod_small. Qed.

Lemma to_int_small (z : Z) : 0 <= z < 2 ^ 31 -> to_int z = z.
Proof.
  intros H. unfold to_int. rewrite Z.mod_small; [lia|].
  destruct (Z.ltb_spec z (2 ^ 31)); lia.
Qed.

(** Splitting a row index into lane and offset and joining them again
    are inverse to each other. *)

Lemma row_split (NCU j : Z) :
  1 <= NCU -> 0 <= j ->
  0 <= Z.rem j NCU < NCU /\ 0 <= Z.quot j NCU /\
  grow NCU (Z.rem j NCU) (Z.quot j NCU) = j.
Proof.
  intros HN Hj. unfold grow.
  rewrite Z.rem_mod_nonneg; try lia. rewrite Z.quot_div_nonneg; try lia.
  pose proof (Z.mod_pos_bound j NCU ltac:(lia)).
  pose proof (Z.div_pos j NCU Hj ltac:(lia)).
  pose proof (Z.div_mod j NCU ltac:(lia)). lia.
Qed.

Lemma row_join (NCU i r : Z) :
  1 <= NCU -> 0 <= i < NCU -> 0 <= r ->
  Z.rem (grow NCU i r) NCU = i /\ Z.quot (grow NCU i r) NCU = r.
Proof.
  intros HN Hi Hr. unfold grow.
  assert (0 <= r * NCU + i) as H0 by nia.
  rewrite Z.rem_mod_nonneg; try lia. rewrite Z.quot_div_nonneg; try lia.
  split.
  - rewrite Z.add_comm Z.mod_add; [lia|]. now apply Z.mod_small.
  - rewrite Z.add_comm Z.div_add; [lia|]. rewrite Z.div_small; lia.
Qed.

Lemma row_quot_lt (NCU NRCU j : Z) :
  1 <= NCU -> 0 <= j < NCU * NRCU -> Z.quot j NCU < NRCU.
Proof.
  intros HN Hj. rewrite Z.quot_div_nonneg; try lia.
  apply Z.div_lt_upper_bound; lia.
Qed.

Lemma NRCU_bounds (NRMAX NCU : Z) :
  1 <= NCU -> 1 <= NRMAX ->
  1 <= Z.quot (NRMAX + NCU - 1) NCU <= NRMAX /\
  NRMAX <= NCU * Z.quot (NRMAX + NCU - 1) NCU.
Proof.
  intros HN HR. rewrite Z.quot_div_nonneg; try lia.
  pose proof (Z.div_mod (NRMAX + NCU - 1) NCU ltac:(lia)) as Hd.
  pose proof (Z.mod_pos_bound (NRMAX + NCU - 1) NCU ltac:(lia)) as Hm.
  set (q := (NRMAX + NCU - 1) / NCU) in *.
  set (t := (NRMAX + NCU - 1) mod NCU) in *.
  repeat split; nia.
Qed.

Ltac zbool :=
  repeat match goal with
  | |- context [Z.eqb ?a ?b] => destruct (Z.eqb_spec a b)
  | |- context [Z.ltb ?a ?b] => destruct (Z.ltb_spec a b)
  | |- context [Z.leb ?a ?b] => destruct (Z.leb_spec a b)
  end; simpl.

(** * The three stages of a sweep, as functions of the cells *)

Section Stages.

Context {T : Type} {ST : Scalar T}.

Lemma view1_ext (d : Z) (a : list T) (f g : Z -> T) :
  view1 d a f -> (forall k, 0 <= k < d -> f k = g k) -> view1 d a g.
Proof. intros Hv He k Hk. rewrite -He; auto. Qed.

Lemma view2_ext (d1 d2 : Z) (a : list (list T)) (f g : Z -> Z -> T) :
  view2 d1 d2 a f ->
  (forall r c, 0 <= r < d1 -> 0 <= c < d2 -> f r c = g r c) ->
  view2 d1 d2 a g.
Proof. intros Hv He r c Hr Hc. rewrite -He; auto. Qed.

Lemma view3_ext (d1 d2 d3 : Z) (a : list (list (list T)))
    (f g : Z -> Z -> Z -> T) :
  view3 d1 d2 d3 a f ->
  (forall i r c, 0 <= i < d1 -> 0 <= r < d2 -> 0 <= c < d3 ->
     f i r c = g i r c) ->
  view3 d1 d2 d3 a g.
Proof. intros Hv He i r c Hi Hr Hc. rewrite -He; auto. Qed.

Lemma rowUpdate_spec (NRCU NCMAX : Z) (A : list (list T)) (pivot : list T)
    (f : Z -> Z -> T) (p : Z -> T) (rs cs : Z) :
  1 <= NRCU -> 1 <= NCMAX -> NRCU * NCMAX < 2 ^ 31 ->
  0 <= rs <= NRCU -> 0 <= cs < NCMAX ->
  view2 NRCU NCMAX A f -> view1 NCMAX pivot p ->
  exists A', rowUpdate A pivot rs (NRCU - 1) cs (NCMAX - 1) = Some A' /\
             view2 NRCU NCMAX A' (row_fun rs cs p f).
Proof.
  intros HR HC Hrange Hrs Hcs HA HP.
  unfold rowUpdate. rewrite (HP cs Hcs). simpl.
  set (nrows := NRCU - 1 - rs + 1). set (ncols := NCMAX - 1 - cs).
  assert (0 <= nrows <= NRCU) as Hnr by (unfold nrows; lia).
  assert (0 <= ncols < NCMAX) as Hnc by (unfold ncols; lia).
  assert (NRCU < 2 ^ 31 /\ NCMAX < 2 ^ 31) as [HRi HCi] by (split; nia).
  assert (0 <= nrows * ncols < 2 ^ 31) as Hb by nia.
  rewrite (@to_unsigned_small (nrows * ncols)); [lia|].
  rewrite (@to_unsigned_small ncols); [lia|].
  rewrite (@to_unsigned_small rs); [lia|].
  rewrite (@to_unsigned_small cs); [lia|].
  pose (g := fun (i r c : Z) =>
    if (rs <=? r) && (cs <? c) && ((r - rs) * ncols + (c - cs - 1) <? i)
    then ssub (f r c) (smul (f r cs) (p c)) else f r c).
  destruct (@for_loop_inv _ (fun i A => view2 NRCU NCMAX A (g i)) 0
              (nrows * ncols)
              (fun i A =>
                 x <- rd2 A (to_int (i / ncols + rs))
                        (to_int (i mod ncols + cs + 1)) ;;
                 y <- rd2 A (to_int (i / ncols + rs)) cs ;;
                 p0 <- rd pivot (to_int (i mod ncols + cs + 1)) ;;
                 wr2 A (to_int (i / ncols + rs))
                   (to_int (i mod ncols + cs + 1)) (ssub x (smul y p0))) A)
    as [A' [Hrun Hfin]].
  - lia.
  - apply (view2_ext HA). intros r c Hr Hc. unfold g.
    zbool; auto; exfalso; nia.
  - intros i B Hi HB.
    assert (0 < ncols) as Hpos by nia.
    pose proof (Z.div_mod i ncols ltac:(lia)) as Hdm.
    pose proof (Z.mod_pos_bound i ncols Hpos) as Hmb.
    assert (0 <= i / ncols < nrows) as Hq.
    { split; [apply Z.div_pos; lia | apply Z.div_lt_upper_bound; nia]. }
    set (q := i / ncols) in *. set (t := i mod ncols) in *.
    rewrite (@to_int_small (q + rs)); [unfold nrows in *; lia|].
    rewrite (@to_int_small (t + cs + 1)); [unfold ncols in *; lia|].
    assert (0 <= q + rs < NRCU) as Hr0 by (unfold nrows in *; lia).
    assert (0 <= t + cs + 1 < NCMAX) as Hc0 by (unfold ncols in *; lia).
    rewrite (HB _ _ Hr0 Hc0). simpl.
    rewrite (HB _ _ Hr0 Hcs). simpl.
    rewrite (HP _ Hc0). simpl.
    destruct (@wr2_Some _ B (q + rs) (t + cs + 1)
                (ssub (g i (q + rs) (t + cs + 1)) (smul (g i (q + rs) cs) (p (t + cs + 1))))
                _ (HB _ _ Hr0 Hc0)) as [B' HB'].
    exists B'. split; [exact HB'|].
    intros r c Hr Hc. rewrite (rd2_wr2 r c HB').
    destruct (Z.eqb_spec r (q + rs)) as [Er|Er]; simpl.
    + destruct (Z.eqb_spec c (t + cs + 1)) as [Ec|Ec]; simpl.
      * subst r c. f_equal. unfold g.
        replace (q + rs - rs) with q by lia.
        replace (t + cs + 1 - cs - 1) with t by lia.
        zbool; try lia; try nia. reflexivity.
      * rewrite (HB _ _ Hr Hc). f_equal. unfold g. subst r.
        replace (q + rs - rs) with q by lia.
        zbool; try reflexivity; exfalso; nia.
    + rewrite (HB _ _ Hr Hc). f_equal. unfold g.
      zbool; try reflexivity; exfalso; try lia.
      assert (r - rs = q) as Hq'; [|lia].
      unfold q. apply (Z.div_unique i ncols (r - rs) (c - cs - 1)); lia.
  - exists A'. split; [exact Hrun|].
    apply (view2_ext Hfin). intros r c Hr Hc. unfold g, row_fun.
    zbool; try reflexivity; exfalso; unfold nrows, ncols in *; nia.
Qed.

End Stages.

Section Sweep.

Context {T : Type} {ST : Scalar T}.

Variables NRCU NCMAX NCU : Z.

Hypothesis HNCU : 1 <= NCU.
Hypothesis HNRCU : 1 <= NRCU.
Hypothesis HNCMAX : 1 <= NCMAX.
Hypothesis Hrange : NRCU * NCMAX < 2 ^ 31.

(** The first local row a lane updates at step [s] is the first one
    whose row index exceeds [s]. *)
Lemma first_row_below (s i r : Z) :
  0 <= s -> 0 <= i < NCU -> 0 <= r ->
  ((if i <=? Z.rem s NCU then Z.quot s NCU + 1 else Z.quot s NCU) <= r
   <-> s < grow NCU i r).
Proof.
  intros Hs Hi Hr. destruct (row_split HNCU Hs) as [Ht [Hq Hg]].
  unfold grow in *. set (qs := Z.quot s NCU) in *. set (ts := Z.rem s NCU) in *.
  destruct (Z.leb_spec i ts); split; intros; nia.
Qed.

Lemma LoopPivot_spec (s n : Z) (A : list (list (list T)))
    (P0 : list (list T)) (f : Z -> Z -> Z -> T) (junk : Z -> Z -> T) :
  0 <= s < NCU * NRCU -> n <= NCMAX ->
  view3 NCU NRCU NCMAX A f -> view2 NCU NCMAX P0 junk ->
  exists P, LoopPivot NCU s n A P0 = Some P /\
            view2 NCU NCMAX P (pivot_fun NCU s n junk f).
Proof.
  intros Hs Hn HA HP. unfold LoopPivot.
  destruct (row_split HNCU (proj1 Hs)) as [Ht [Hq Hg]].
  pose proof (row_quot_lt HNCU Hs) as Hq'.
  destruct (Z.le_gt_cases n s) as [Hns|Hns].
  { rewrite for_loop_empty; [exact Hns|]. exists P0. split; [reflexivity|].
    apply (view2_ext HP). intros i c Hi Hc. unfold pivot_fun. zbool; auto; lia. }
  pose (g := fun (k i c : Z) =>
    if (s <=? c) && (c <? k) then f (Z.rem s NCU) (Z.quot s NCU) c
    else junk i c).
  destruct (@for_loop_inv _ (fun k P => view2 NCU NCMAX P (g k)) s n
              (fun k pivot =>
                 for_loop 0 NCU
                   (fun r pivot =>
                      x <- rd3 A (Z.rem s NCU) (Z.quot s NCU) k ;;
                      wr2 pivot r k x) pivot) P0)
    as [P [Hrun Hfin]].
  - lia.
  - apply (view2_ext HP). intros i c Hi Hc. unfold g. zbool; auto; lia.
  - intros k P Hk HPk.
    pose (h := fun (r i c : Z) =>
      if (c =? k) && (i <? r) then f (Z.rem s NCU) (Z.quot s NCU) c
      else g k i c).
    destruct (@for_loop_inv _ (fun r P => view2 NCU NCMAX P (h r)) 0 NCU
                (fun r pivot =>
                   x <- rd3 A (Z.rem s NCU) (Z.quot s NCU) k ;;
                   wr2 pivot r k x) P)
      as [P' [Hrun' Hfin']].
    + lia.
    + apply (view2_ext HPk). intros i c Hi Hc. unfold h. zbool; auto; lia.
    + intros r Q Hr HQ.
      rewrite (HA _ _ k Ht (conj Hq Hq') ltac:(lia)). simpl.
      destruct (@wr2_Some _ Q r k (f (Z.rem s NCU) (Z.quot s NCU) k)
                  _ (HQ r k Hr ltac:(lia))) as [Q' HQ'].
      exists Q'. split; [exact HQ'|].
      intros i c Hi Hc. rewrite (rd2_wr2 i c HQ') (HQ i c Hi Hc).
      unfold h. zbool; subst; try reflexivity; exfalso; lia.
    + exists P'. split; [exact Hrun'|].
      apply (view2_ext Hfin'). intros i c Hi Hc. unfold h, g.
      zbool; subst; try reflexivity; exfalso; lia.
  - exists P. split; [exact Hrun|].
    apply (view2_ext Hfin). intros i c Hi Hc. reflexivity.
Qed.

Lemma LoopDiv_spec (s m : Z) (a00 : T) (A : list (list (list T)))
    (f : Z -> Z -> Z -> T) :
  0 <= s < NCMAX -> m <= NCU * NRCU ->
  view3 NCU NRCU NCMAX A f ->
  exists A', LoopDiv NCU s m a00 A = Some A' /\
             view3 NCU NRCU NCMAX A' (div_fun NCU s m a00 f).
Proof.
  intros Hs Hm HA. unfold LoopDiv.
  destruct (Z.le_gt_cases m (s + 1)) as [Hms|Hms].
  { rewrite for_loop_empty; [exact Hms|]. exists A. split; [reflexivity|].
    apply (view3_ext HA). intros i r c Hi Hr Hc. unfold div_fun.
    zbool; auto; lia. }
  pose (g := fun (j i r c : Z) =>
    if (c =? s) && (s <? grow NCU i r) && (grow NCU i r <? j)
    then sdiv (f i r c) a00 else f i r c).
  destruct (@for_loop_inv _ (fun j A => view3 NCU NRCU NCMAX A (g j)) (s + 1) m
              (fun j A =>
                 x <- rd3 A (Z.rem j NCU) (Z.quot j NCU) s ;;
                 wr3 A (Z.rem j NCU) (Z.quot j NCU) s (sdiv x a00)) A)
    as [A' [Hrun Hfin]].
  - lia.
  - apply (view3_ext HA). intros i r c Hi Hr Hc. unfold g. zbool; auto; lia.
  - intros j B Hj HB.
    destruct (@row_split NCU j HNCU ltac:(lia)) as [Ht [Hq Hg]].
    pose proof (@row_quot_lt NCU NRCU j HNCU ltac:(lia)) as Hq'.
    set (i0 := Z.rem j NCU) in *. set (r0 := Z.quot j NCU) in *.
    rewrite (HB i0 r0 s Ht (conj Hq Hq') Hs). simpl.
    destruct (@wr3_Some _ B i0 r0 s (sdiv (g j i0 r0 s) a00)
                _ (HB i0 r0 s Ht (conj Hq Hq') Hs)) as [B' HB'].
    exists B'. split; [exact HB'|].
    intros i r c Hi Hr Hc. rewrite (rd3_wr3 i r c HB') (HB i r c Hi Hr Hc).
    unfold g.
    destruct (Z.eqb_spec i i0) as [Ei|Ei]; simpl.
    + destruct (Z.eqb_spec r r0) as [Er|Er]; simpl.
      * rewrite Ei Er Hg.
        zbool; try reflexivity; try congruence; exfalso; lia.
      * assert (grow NCU i r <> j) as Hne.
        { intros E. destruct (@row_join NCU i r HNCU Hi ltac:(lia)) as [_ E2].
          rewrite E in E2. fold r0 in E2. lia. }
        zbool; try reflexivity; try congruence; exfalso; lia.
    + assert (grow NCU i r <> j) as Hne.
      { intros E. destruct (@row_join NCU i r HNCU Hi ltac:(lia)) as [E1 _].
        rewrite E in E1. fold i0 in E1. lia. }
      zbool; try reflexivity; try congruence; exfalso; lia.
  - exists A'. split; [exact Hrun|]. exact Hfin.
Qed.

Lemma LoopMat_spec (s : Z) (P : list (list T)) (A : list (list (list T)))
    (p : Z -> Z -> T) (f : Z -> Z -> Z -> T) :
  0 <= s < NCMAX -> s < NCU * NRCU ->
  view2 NCU NCMAX P p -> view3 NCU NRCU NCMAX A f ->
  exists A', LoopMat NRCU NCMAX NCU s P A = Some A' /\
             view3 NCU NRCU NCMAX A' (upd_fun NCU s p f).
Proof.
  intros Hs Hs' HP HA. unfold LoopMat.
  destruct (@row_split NCU s HNCU ltac:(lia)) as [Ht [Hq Hg]].
  pose proof (@row_quot_lt NCU NRCU s HNCU ltac:(lia)) as Hq'.
  pose (g := fun (i0 i r c : Z) =>
    if i <? i0 then upd_fun NCU s p f i r c else f i r c).
  destruct (@for_loop_inv _ (fun i A => view3 NCU NRCU NCMAX A (g i)) 0 NCU
              (fun i A =>
                 Ai <- rd A i ;;
                 Pi <- rd P i ;;
                 Ai' <- rowUpdate Ai Pi
                          (if i <=? Z.rem s NCU then Z.quot s NCU + 1
                           else Z.quot s NCU)
                          (NRCU - 1) s (NCMAX - 1) ;;
                 wr A i Ai') A)
    as [A' [Hrun Hfin]].
  - lia.
  - apply (view3_ext HA). intros i r c Hi Hr Hc. unfold g. zbool; auto; lia.
  - intros i0 B Hi0 HB.
    destruct (view3_lane HNRCU HNCMAX HB Hi0) as [lane [El Hl]].
    destruct (view2_row HNCMAX HP Hi0) as [Pi [EP HPi]].
    rewrite El EP. simpl.
    set (rs := if i0 <=? Z.rem s NCU then Z.quot s NCU + 1 else Z.quot s NCU).
    assert (0 <= rs <= NRCU) as Hrs.
    { unfold rs. destruct (Z.leb_spec i0 (Z.rem s NCU)); lia. }
    destruct (@rowUpdate_spec _ _ NRCU NCMAX lane Pi (g i0 i0) (p i0) rs s
                HNRCU HNCMAX Hrange Hrs Hs Hl HPi) as [lane' [Eu Hl']].
    rewrite Eu. simpl.
    pose proof (rd_in_range El) as Hin.
    rewrite (wr_Some lane' Hin).
    eexists. split; [reflexivity|].
    intros i r c Hi Hr Hc.
    rewrite (rd3_wr_lane i r c (wr_Some lane' Hin)).
    destruct (Z.eqb_spec i i0) as [->|Ei].
    + rewrite (Hl' r c Hr Hc). f_equal. unfold row_fun, g, upd_fun.
      pose proof (@first_row_below s i0 r ltac:(lia) Hi0 ltac:(lia)) as Hfr.
      fold rs in Hfr.
      destruct (Z.ltb_spec i0 i0); [lia|].
      destruct (Z.ltb_spec i0 (i0 + 1)); [|lia].
      destruct (Z.leb_spec rs r); destruct (Z.ltb_spec s (grow NCU i0 r));
        simpl; try reflexivity; exfalso; intuition lia.
    + rewrite (HB i r c Hi Hr Hc). f_equal. unfold g.
      zbool; try reflexivity; exfalso; lia.
  - exists A'. split; [exact Hrun|].
    apply (view3_ext Hfin). intros i r c Hi Hr Hc. unfold g.
    zbool; auto; lia.
Qed.

Lemma sweep_spec (m n : Z) (junk : Z -> Z -> T) (s : Z)
    (A : list (list (list T))) (f : Z -> Z -> Z -> T) :
  0 <= s < NCMAX -> s < NCU * NRCU -> m <= NCU * NRCU -> n <= NCMAX ->
  view3 NCU NRCU NCMAX A f ->
  exists A', sweep NRCU NCMAX NCU m n junk s A = Some A' /\
             view3 NCU NRCU NCMAX A' (sweep_fun NCU m n junk s f).
Proof.
  intros Hs Hs' Hm Hn HA. unfold sweep.
  destruct (@LoopPivot_spec s n A (fresh2 NCU NCMAX junk) f junk
              ltac:(lia) Hn HA (@view2_fresh2 _ NCU NCMAX junk)) as [P [EP HP]].
  rewrite EP. simpl.
  rewrite (HP 0 s ltac:(lia) Hs). simpl.
  destruct (@LoopDiv_spec s m (pivot_fun NCU s n junk f 0 s) A f Hs Hm HA)
    as [A1 [E1 H1]].
  rewrite E1. simpl.
  apply (LoopMat_spec Hs Hs' HP H1).
Qed.

(** A step whose column index is outside the arrays reads [pivot[0][s]]
    outside [pivot]. *)
Lemma sweep_out_of_bounds (m n : Z) (junk : Z -> Z -> T) (s : Z)
    (A : list (list (list T))) :
  n <= NCMAX -> NCMAX <= s ->
  sweep NRCU NCMAX NCU m n junk s A = None.
Proof.
  intros Hn Hs. unfold sweep, LoopPivot.
  rewrite for_loop_empty; [lia|]. simpl.
  rewrite rd2_fresh2.
  destruct (Z.ltb_spec s NCMAX); [lia|].
  now rewrite !andb_false_r.
Qed.

End Sweep.

(** * A sweep performs a step of the recurrence *)

Section Logical.

Context {T : Type} {ST : Scalar T}.

Lemma agree_refl (m n : Z) (M : Z -> Z -> T) : agree m n M M.
Proof. intros j c _ _. reflexivity. Qed.

Lemma agree_sym (m n : Z) (M1 M2 : Z -> Z -> T) :
  agree m n M1 M2 -> agree m n M2 M1.
Proof. intros H j c Hj Hc. symmetry. now apply H. Qed.

Lemma agree_trans (m n : Z) (M1 M2 M3 : Z -> Z -> T) :
  agree m n M1 M2 -> agree m n M2 M3 -> agree m n M1 M3.
Proof. intros H1 H2 j c Hj Hc. rewrite H1; auto. Qed.

Lemma lu_step_agree (m n s : Z) (M1 M2 : Z -> Z -> T) :
  0 <= s < m -> agree m n M1 M2 ->
  agree m n (lu_step s M1) (lu_step s M2).
Proof.
  intros Hs H j c Hj Hc. unfold lu_step.
  destruct (Z.ltb_spec s j); [|now apply H].
  destruct (Z.eqb_spec c s) as [->|Hne].
  - rewrite !(H _ _ Hj Hc) (H s s); [lia | lia | reflexivity].
  - destruct (Z.ltb_spec s c); [|now apply H].
    rewrite (H j c Hj Hc) (H j s Hj) ?(H s s) ?(H s c); try lia.
    reflexivity.
Qed.

Lemma lu_steps_agree (m n : Z) (k : nat) (M1 M2 : Z -> Z -> T) :
  Z.of_nat k <= m -> agree m n M1 M2 ->
  agree m n (lu_steps k M1) (lu_steps k M2).
Proof.
  induction k as [|k IH]; intros Hk H; simpl; [exact H|].
  apply lu_step_agree; [lia|]. apply IH; [lia | exact H].
Qed.

Lemma lu_steps_succ (s : Z) (M : Z -> Z -> T) :
  0 <= s -> lu_steps (Z.to_nat (s + 1)) M = lu_step s (lu_steps (Z.to_nat s) M).
Proof.
  intros Hs. replace (Z.to_nat (s + 1)) with (S (Z.to_nat s)) by lia.
  simpl. now rewrite Z2Nat.id.
Qed.

(** One sweep of the lane buffer performs one step of the recurrence on
    the logical [m x n] region, whatever the padding and the unwritten
    part of [pivot] hold. *)
Lemma sweep_fun_logical (NCU m n : Z) (junk : Z -> Z -> T) (s : Z)
    (f : Z -> Z -> Z -> T) :
  1 <= NCU -> 0 <= s < m ->
  agree m n (logical NCU (sweep_fun NCU m n junk s f))
            (lu_step s (logical NCU f)).
Proof.
  intros HN Hs j c Hj Hc.
  unfold logical, sweep_fun, upd_fun, div_fun, pivot_fun, lu_step.
  destruct (@row_split NCU j HN ltac:(lia)) as [_ [_ Hg]]. rewrite Hg.
  zbool; subst; try reflexivity; exfalso; lia.
Qed.

End Logical.

(** * The core and the copies *)

Section Run.

Context {T : Type} {ST : Scalar T}.

Variables NRCU NCMAX NCU : Z.
Hypothesis HNCU : 1 <= NCU.
Hypothesis HNRCU : 1 <= NRCU.
Hypothesis HNCMAX : 1 <= NCMAX.
Hypothesis Hrange : NRCU * NCMAX < 2 ^ 31.

Lemma getrf_nopivot_core_spec (junkP : Z -> Z -> Z -> T) (m n lda : Z)
    (A : list (list (list T))) (f : Z -> Z -> Z -> T) :
  m <= NCU * NRCU -> n <= NCMAX -> m <= NCMAX + 1 ->
  view3 NCU NRCU NCMAX A f ->
  exists A' f',
    getrf_nopivot_core NRCU NCMAX NCU junkP m n A lda = Some A' /\
    view3 NCU NRCU NCMAX A' f' /\
    agree m n (logical NCU f') (lu_sweep m (logical NCU f)).
Proof.
  intros Hm Hn Hmc HA. unfold getrf_nopivot_core, lu_sweep.
  destruct (Z.le_gt_cases (m - 1) 0) as [H0|H0].
  { rewrite for_loop_empty; [exact H0|]. exists A, f.
    split; [reflexivity|]. split; [exact HA|].
    replace (Z.to_nat (m - 1)) with O by lia. apply agree_refl. }
  destruct (@for_loop_inv _
              (fun s B => exists g, view3 NCU NRCU NCMAX B g /\
                 agree m n (logical NCU g)
                   (lu_steps (Z.to_nat s) (logical NCU f)))
              0 (m - 1)
              (fun s A => sweep NRCU NCMAX NCU m n (junkP s) s A) A)
    as [A' [Hrun [f' [Hv Ha]]]].
  - lia.
  - exists f. split; [exact HA | apply agree_refl].
  - intros s B Hs [g [Hg Hag]].
    destruct (@sweep_spec _ _ NRCU NCMAX NCU HNCU HNRCU HNCMAX Hrange
                m n (junkP s) s B g ltac:(lia) ltac:(lia) Hm Hn Hg)
      as [B' [EB HB']].
    exists B'. split; [exact EB|].
    exists (sweep_fun NCU m n (junkP s) s g). split; [exact HB'|].
    rewrite lu_steps_succ; [lia|].
    eapply agree_trans.
    + apply sweep_fun_logical; [exact HNCU | lia].
    + apply lu_step_agree; [lia | exact Hag].
  - exists A', f'. auto.
Qed.

(** With more than [NCMAX + 1] rows the sweep reaches a step [s = NCMAX]. *)
Lemma getrf_nopivot_core_out_of_bounds (junkP : Z -> Z -> Z -> T)
    (m n lda : Z) (A : list (list (list T))) :
  n <= NCMAX -> NCMAX + 2 <= m ->
  getrf_nopivot_core NRCU NCMAX NCU junkP m n A lda = None.
Proof.
  intros Hn Hm. unfold getrf_nopivot_core.
  apply (@for_loop_fail _ 0 (m - 1) NCMAX); [lia|].
  intros B. apply sweep_out_of_bounds; [exact Hn | lia].
Qed.

Lemma ext_fun_rd (d : T) (m n lda : Z) (A : list T) (r c : Z) :
  ext_ok m n lda A -> 0 <= r < m -> 0 <= c < n ->
  rd A (lda * r + c) = Some (ext_fun d lda A r c).
Proof.
  intros Hok Hr Hc. unfold ext_fun.
  destruct (proj2 (rd_Some_iff A (lda * r + c)) (Hok r c Hr Hc)) as [x ->].
  reflexivity.
Qed.

Lemma LoopRead_spec (d : T) (m n lda : Z) (A : list T)
    (B0 : list (list (list T))) (junk : Z -> Z -> Z -> T) :
  m <= NCU * NRCU -> n <= NCMAX -> ext_ok m n lda A ->
  view3 NCU NRCU NCMAX B0 junk ->
  exists B, LoopRead NCU m n A lda B0 = Some B /\
            view3 NCU NRCU NCMAX B (load_fun NCU m n (ext_fun d lda A) junk).
Proof.
  intros Hm Hn Hok HB0. unfold LoopRead.
  set (a := ext_fun d lda A).
  destruct (Z.le_gt_cases m 0) as [Hm0|Hm0].
  { rewrite for_loop_empty; [exact Hm0|]. exists B0. split; [reflexivity|].
    apply (view3_ext HB0). intros i r c Hi Hr Hc. unfold load_fun, grow.
    zbool; auto; exfalso; nia. }
  pose (g := fun (r0 i r c : Z) =>
    if (grow NCU i r <? r0) && (c <? n) then a (grow NCU i r) c
    else junk i r c).
  destruct (@for_loop_inv _ (fun r B => view3 NCU NRCU NCMAX B (g r)) 0 m
              (fun r matA =>
                 for_loop 0 n
                   (fun c matA =>
                      x <- rd A (lda * r + c) ;;
                      wr3 matA (Z.rem r NCU) (Z.quot r NCU) c x) matA) B0)
    as [B [Hrun Hfin]].
  - lia.
  - apply (view3_ext HB0). intros i r c Hi Hr Hc. unfold g, grow.
    zbool; auto; exfalso; nia.
  - intros r0 B Hr0 HB.
    destruct (@row_split NCU r0 HNCU ltac:(lia)) as [Ht [Hq Hg]].
    pose proof (@row_quot_lt NCU NRCU r0 HNCU ltac:(lia)) as Hq'.
    set (i0 := Z.rem r0 NCU) in *. set (q0 := Z.quot r0 NCU) in *.
    destruct (Z.le_gt_cases n 0) as [Hn0|Hn0].
    { rewrite for_loop_empty; [exact Hn0|]. exists B. split; [reflexivity|].
      apply (view3_ext HB). intros i r c Hi Hr Hc. unfold g.
      zbool; auto; exfalso; lia. }
    pose (h := fun (c0 i r c : Z) =>
      if (grow NCU i r =? r0) && (c <? c0) then a r0 c else g r0 i r c).
    destruct (@for_loop_inv _ (fun c B => view3 NCU NRCU NCMAX B (h c)) 0 n
                (fun c matA =>
                   x <- rd A (lda * r0 + c) ;;
                   wr3 matA i0 q0 c x) B)
      as [B' [Hrun' Hfin']].
    + lia.
    + apply (view3_ext HB). intros i r c Hi Hr Hc. unfold h.
      zbool; auto; exfalso; lia.
    + intros c0 C Hc0 HC.
      rewrite (@ext_fun_rd d m n lda A r0 c0 Hok Hr0 Hc0). simpl. fold a.
      destruct (@wr3_Some _ C i0 q0 c0 (a r0 c0) _
                  (HC i0 q0 c0 Ht (conj Hq Hq') ltac:(lia))) as [C' HC'].
      exists C'. split; [exact HC'|].
      intros i r c Hi Hr Hc. rewrite (rd3_wr3 i r c HC') (HC i r c Hi Hr Hc).
      unfold h.
      destruct (Z.eqb_spec i i0) as [Ei|Ei]; simpl.
      * destruct (Z.eqb_spec r q0) as [Er|Er]; simpl.
        -- rewrite Ei Er Hg.
           zbool; try reflexivity; try congruence; exfalso; lia.
        -- assert (grow NCU i r <> r0) as Hne.
           { intros E. destruct (@row_join NCU i r HNCU Hi ltac:(lia)) as [_ E2].
             rewrite E in E2. fold q0 in E2. lia. }
           zbool; try reflexivity; try congruence; exfalso; lia.
      * assert (grow NCU i r <> r0) as Hne.
        { intros E. destruct (@row_join NCU i r HNCU Hi ltac:(lia)) as [E1 _].
          rewrite E in E1. fold i0 in E1. lia. }
        zbool; try reflexivity; try congruence; exfalso; lia.
    + exists B'. split; [exact Hrun'|].
      apply (view3_ext Hfin'). intros i r c Hi Hr Hc. unfold h, g.
      zbool; try reflexivity; try congruence; exfalso; lia.
  - exists B. split; [exact Hrun|].
    apply (view3_ext Hfin). intros i r c Hi Hr Hc. reflexivity.
Qed.

End Run.

Lemma for_loop_ext {St : Type} (lo hi : Z)
    (body1 body2 : Z -> St -> option St) (st : St) :
  (forall i st, lo <= i < hi -> body1 i st = body2 i st) ->
  for_loop lo hi body1 st = for_loop lo hi body2 st.
Proof.
  remember (Z.to_nat (hi - lo)) as k eqn:Ek.
  revert lo st Ek. induction k as [|k IH]; intros lo st Ek Hb.
  - rewrite !for_loop_empty; try lia. reflexivity.
  - assert (lo < hi) as Hlt by lia.
    rewrite !(for_loop_unfold _ _ Hlt) (Hb lo st); [lia|].
    destruct (body2 lo st) as [st1|]; simpl; [|reflexivity].
    apply IH; [lia|]. intros i st2 Hi. apply Hb. lia.
Qed.

Lemma rows_disjoint_lda (m n lda : Z) : n <= lda -> rows_disjoint m n lda.
Proof.
  intros Hl r c r' c' _ Hc _ Hc' E.
  assert (r = r') as ->; [|lia].
  destruct (Z.lt_trichotomy r r') as [H|[H|H]];
    [exfalso; nia | exact H | exfalso; nia].
Qed.

Lemma rows_disjoint_one (m n lda : Z) : m <= 1 -> rows_disjoint m n lda.
Proof. intros Hm r c r' c' Hr _ Hr' _ E. assert (r = r') as -> by lia. lia. Qed.

Section Copies.

Context {T : Type} {ST : Scalar T}.

(** A load that returned has read every cell of the matrix. *)
Lemma LoopRead_Some_ext (NCU m n lda : Z) (A : list T)
    (B0 B : list (list (list T))) :
  LoopRead NCU m n A lda B0 = Some B -> ext_ok m n lda A.
Proof.
  intros Hrun. unfold LoopRead in Hrun.
  destruct (Z.le_gt_cases m 0) as [Hm0|Hm0]; [intros r c Hr Hc; lia|].
  refine (@for_loop_post _
            (fun r0 _ => forall r c, 0 <= r < r0 -> 0 <= c < n ->
                           0 <= lda * r + c < len A)
            0 m _ B0 B ltac:(lia) _ _ Hrun).
  - intros r c Hr. lia.
  - intros r0 C C1 Hr0 Hinv Hbody.
    destruct (Z.le_gt_cases n 0) as [Hn0|Hn0]; [intros r c Hr Hc; lia|].
    assert (forall c, 0 <= c < n -> 0 <= lda * r0 + c < len A) as Hrow.
    { refine (@for_loop_post _
                (fun c0 _ => forall c, 0 <= c < c0 -> 0 <= lda * r0 + c < len A)
                0 n _ C C1 ltac:(lia) _ _ Hbody).
      - intros c Hc. lia.
      - intros c0 D D1 Hc0 Hinv' Hb c Hc.
        destruct (rd A (lda * r0 + c0)) as [x|] eqn:Ex; simpl in Hb;
          [|discriminate].
        destruct (Z.eq_dec c c0) as [->|Hne].
        + exact (rd_in_range Ex).
        + apply Hinv'. lia. }
    intros r c Hr Hc. destruct (Z.eq_dec r r0) as [->|Hne].
    + now apply Hrow.
    + apply Hinv; lia.
Qed.

(** [LoopWrite] touches only the offsets [r * lda + c] of the matrix. *)
Lemma LoopWrite_frame (NCU m n lda : Z) (B : list (list (list T)))
    (A A' : list T) :
  LoopWrite NCU m n lda B A = Some A' ->
  len A' = len A /\
  forall k, (forall r c, 0 <= r < m -> 0 <= c < n -> k <> r * lda + c) ->
            rd A' k = rd A k.
Proof.
  intros Hrun. unfold LoopWrite in Hrun.
  destruct (Z.le_gt_cases m 0) as [Hm0|Hm0].
  { rewrite for_loop_empty in Hrun; [exact Hm0|]. inversion Hrun. auto. }
  pose (Inv := fun (r0 c0 : Z) (C : list T) =>
    len C = len A /\
    forall k, (forall r c, 0 <= r < m -> 0 <= c < n ->
                 r < r0 \/ (r = r0 /\ c < c0) -> k <> r * lda + c) ->
              rd C k = rd A k).
  assert (Inv m 0 A') as [Hl Hf].
  { refine (@for_loop_post _ (fun r0 C => Inv r0 0 C)
              0 m _ A A' ltac:(lia) _ _ Hrun).
    - split; auto.
    - intros r0 C C1 Hr0 HC Hbody.
      destruct (Z.le_gt_cases n 0) as [Hn0|Hn0].
      { rewrite for_loop_empty in Hbody; [exact Hn0|]. inversion Hbody; subst.
        destruct HC as [HCl HCf]. split; [exact HCl|].
        intros k Hk. apply HCf. intros r c Hr Hc Hlt. lia. }
      assert (Inv r0 n C1) as [H1 H2].
      { refine (@for_loop_post _ (fun c0 C => Inv r0 c0 C)
                  0 n _ C C1 ltac:(lia) _ _ Hbody).
        - exact HC.
        - intros c0 D D1 Hc0 [HDl HDf] Hb.
          destruct (rd3 B (Z.rem r0 NCU) (Z.quot r0 NCU) c0) as [x|];
            simpl in Hb; [|discriminate].
          split; [rewrite (len_wr Hb); exact HDl|].
          intros k Hk. rewrite (rd_wr k Hb).
          destruct (Z.eqb_spec k (r0 * lda + c0)) as [E|E].
          + exfalso. apply (Hk r0 c0); try lia.
          + apply HDf. intros r c Hr Hc Hlt. apply Hk; try lia. }
      split; [exact H1|]. intros k Hk. apply H2.
      intros r c Hr Hc Hlt. apply Hk; try lia. }
  split; [exact Hl|]. intros k Hk. apply Hf.
  intros r c Hr Hc _. now apply Hk.
Qed.

(** When the rows do not overlap, every cell of the matrix is written
    back at its offset. *)
Lemma LoopWrite_spec (NRCU NCMAX NCU m n lda : Z)
    (B : list (list (list T))) (f : Z -> Z -> Z -> T) (A : list T) :
  1 <= NCU -> m <= NCU * NRCU -> n <= NCMAX ->
  view3 NCU NRCU NCMAX B f -> ext_ok m n lda A ->
  exists A', LoopWrite NCU m n lda B A = Some A' /\
    (rows_disjoint m n lda -> forall r c, 0 <= r < m -> 0 <= c < n ->
       rd A' (r * lda + c) = Some (logical NCU f r c)).
Proof.
  intros HN Hm Hn HB Hok. unfold LoopWrite.
  destruct (Z.le_gt_cases m 0) as [Hm0|Hm0].
  { rewrite for_loop_empty; [exact Hm0|]. exists A. split; [reflexivity|].
    intros _ r c Hr Hc. lia. }
  pose (Inv := fun (r0 c0 : Z) (C : list T) =>
    len C = len A /\
    (rows_disjoint m n lda -> forall r c, 0 <= r < m -> 0 <= c < n ->
       r < r0 \/ (r = r0 /\ c < c0) ->
       rd C (r * lda + c) = Some (logical NCU f r c))).
  destruct (@for_loop_inv _ (fun r0 C => Inv r0 0 C) 0 m
              (fun r A =>
                 for_loop 0 n
                   (fun c A =>
                      x <- rd3 B (Z.rem r NCU) (Z.quot r NCU) c ;;
                      wr A (r * lda + c) x) A) A)
    as [A' [Hrun [Hl Hf]]].
  - lia.
  - split; [reflexivity|]. intros _ r c Hr Hc Hlt. lia.
  - intros r0 C Hr0 HC.
    destruct (Z.le_gt_cases n 0) as [Hn0|Hn0].
    { rewrite for_loop_empty; [exact Hn0|]. exists C. split; [reflexivity|].
      destruct HC as [HCl HCf]. split; [exact HCl|].
      intros Hlda r c Hr Hc Hlt. lia. }
    destruct (@row_split NCU r0 HN ltac:(lia)) as [Ht [Hq Hg]].
    pose proof (@row_quot_lt NCU NRCU r0 HN ltac:(lia)) as Hq'.
    destruct (@for_loop_inv _ (fun c0 C => Inv r0 c0 C) 0 n
                (fun c A =>
                   x <- rd3 B (Z.rem r0 NCU) (Z.quot r0 NCU) c ;;
                   wr A (r0 * lda + c) x) C)
      as [C' [Hrun' [Hl' Hf']]].
    + lia.
    + exact HC.
    + intros c0 D Hc0 [HDl HDf].
      rewrite (HB _ _ c0 Ht (conj Hq Hq') ltac:(lia)). simpl.
      assert (0 <= r0 * lda + c0 < len D) as Hin.
      { rewrite HDl. pose proof (Hok r0 c0 Hr0 Hc0). lia. }
      rewrite (wr_Some _ Hin). eexists. split; [reflexivity|].
      split.
      * rewrite (len_wr (wr_Some _ Hin)). exact HDl.
      * intros Hlda r c Hr Hc Hlt.
        rewrite (rd_wr (r * lda + c) (wr_Some _ Hin)).
        destruct (Z.eqb_spec (r * lda + c) (r0 * lda + c0)) as [E|E].
        -- destruct (Hlda r c r0 c0 Hr Hc Hr0 Hc0 E) as [-> ->]. reflexivity.
        -- apply HDf; auto. destruct Hlt as [Hlt|[-> Hlt]]; [lia|].
           right. split; [reflexivity|].
           assert (c <> c0) by (intros ->; apply E; reflexivity). lia.
    + exists C'. split; [exact Hrun'|]. split; [exact Hl'|].
      intros Hlda r c Hr Hc Hlt. apply Hf'; auto. lia.
  - exists A'. split; [exact Hrun|].
    intros Hlda r c Hr Hc. apply Hf; auto. lia.
Qed.

(** Write-back depends on the logical region of the lane buffer only. *)
Lemma LoopWrite_agree (NRCU1 NCMAX1 NCU1 NRCU2 NCMAX2 NCU2 m n lda : Z)
    (B1 B2 : list (list (list T))) (f1 f2 : Z -> Z -> Z -> T) (A : list T) :
  1 <= NCU1 -> 1 <= NCU2 ->
  m <= NCU1 * NRCU1 -> m <= NCU2 * NRCU2 -> n <= NCMAX1 -> n <= NCMAX2 ->
  view3 NCU1 NRCU1 NCMAX1 B1 f1 -> view3 NCU2 NRCU2 NCMAX2 B2 f2 ->
  agree m n (logical NCU1 f1) (logical NCU2 f2) ->
  LoopWrite NCU1 m n lda B1 A = LoopWrite NCU2 m n lda B2 A.
Proof.
  intros HN1 HN2 Hm1 Hm2 Hn1 Hn2 HB1 HB2 Hag. unfold LoopWrite.
  apply for_loop_ext. intros r C Hr.
  apply for_loop_ext. intros c D Hc.
  destruct (@row_split NCU1 r HN1 ltac:(lia)) as [Ht1 [Hq1 _]].
  pose proof (@row_quot_lt NCU1 NRCU1 r HN1 ltac:(lia)) as Hq1'.
  destruct (@row_split NCU2 r HN2 ltac:(lia)) as [Ht2 [Hq2 _]].
  pose proof (@row_quot_lt NCU2 NRCU2 r HN2 ltac:(lia)) as Hq2'.
  rewrite (HB1 _ _ c Ht1 (conj Hq1 Hq1') ltac:(lia)).
  rewrite (HB2 _ _ c Ht2 (conj Hq2 Hq2') ltac:(lia)).
  simpl. f_equal. apply (Hag r c Hr Hc).
Qed.

End Copies.

(** * The whole routine *)

Section Whole.

Context {T : Type} {ST : Scalar T}.

Lemma load_fun_logical (NCU m n : Z) (a : Z -> Z -> T)
    (junk : Z -> Z -> Z -> T) :
  1 <= NCU -> agree m n (logical NCU (load_fun NCU m n a junk)) a.
Proof.
  intros HN j c Hj Hc. unfold logical, load_fun.
  destruct (@row_split NCU j HN ltac:(lia)) as [_ [_ Hg]]. rewrite Hg.
  zbool; try reflexivity; exfalso; lia.
Qed.

Lemma template_lanes (NRMAX NCMAX NCU : Z) :
  template_ok NRMAX NCMAX NCU ->
  let NRCU := Z.quot (NRMAX + NCU - 1) NCU in
  1 <= NRCU /\ NRMAX <= NCU * NRCU /\ NRCU * NCMAX < 2 ^ 31.
Proof.
  intros [HN [HR [HC Hi]]] NRCU.
  destruct (NRCU_bounds HN HR) as [[H1 H2] H3]. fold NRCU in H1, H2, H3.
  repeat split; try lia. nia.
Qed.

(** Inside the bounds the arrays allow, the routine returns, [info] is
    the value passed in, and the buffer holds the result of the
    recurrence. *)
Lemma getrf_nopivot_spec (NRMAX NCMAX NCU : Z)
    (junkA junkP : Z -> Z -> Z -> T) (m n : Z) (A : list T) (lda info : Z)
    (d : T) :
  template_ok NRMAX NCMAX NCU ->
  m <= NRMAX -> n <= NCMAX -> m <= NCMAX + 1 -> ext_ok m n lda A ->
  exists A',
    getrf_nopivot NRMAX NCMAX NCU junkA junkP m n A lda info = Some (A', info) /\
    len A' = len A /\
    (forall k, (forall r c, 0 <= r < m -> 0 <= c < n -> k <> r * lda + c) ->
               rd A' k = rd A k) /\
    (rows_disjoint m n lda -> forall r c, 0 <= r < m -> 0 <= c < n ->
       rd A' (r * lda + c) = Some (lu_sweep m (ext_fun d lda A) r c)).
Proof.
  intros Hok Hm Hn Hmc Hext.
  destruct (template_lanes Hok) as [HR [HRm Hrange]].
  destruct Hok as [HN [_ [HC _]]].
  unfold getrf_nopivot. set (NRCU := Z.quot (NRMAX + NCU - 1) NCU) in *.
  destruct (@LoopRead_spec _ NRCU NCMAX NCU HN d m n lda A _ junkA
              ltac:(lia) Hn Hext (@view3_fresh3 _ NCU NRCU NCMAX junkA))
    as [B [EB HB]].
  rewrite EB. simpl.
  destruct (@getrf_nopivot_core_spec _ _ NRCU NCMAX NCU HN HR HC Hrange
              junkP m n lda B _ ltac:(lia) Hn Hmc HB)
    as [B' [f' [EB' [HB' Hag]]]].
  rewrite EB'. simpl.
  assert (ext_ok m n lda A) as Hext' by exact Hext.
  destruct (@LoopWrite_spec _ NRCU NCMAX NCU m n lda B' f' A HN
              ltac:(lia) Hn HB' Hext) as [A' [EA' HA']].
  rewrite EA'. simpl. exists A'. split; [reflexivity|].
  destruct (LoopWrite_frame EA') as [Hl Hf].
  split; [exact Hl|]. split; [exact Hf|].
  intros Hlda r c Hr Hc. rewrite (HA' Hlda r c Hr Hc). f_equal.
  rewrite (Hag r c Hr Hc). unfold lu_sweep.
  apply (@lu_steps_agree _ _ m n); [lia | | exact Hr | exact Hc].
  now apply load_fun_logical.
Qed.

(** More than [NCMAX + 1] rows: the sweep runs past the last column. *)
Lemma getrf_nopivot_out_of_bounds (NRMAX NCMAX NCU : Z)
    (junkA junkP : Z -> Z -> Z -> T) (m n : Z) (A : list T) (lda info : Z) :
  1 <= NCMAX -> n <= NCMAX -> NCMAX + 2 <= m ->
  getrf_nopivot NRMAX NCMAX NCU junkA junkP m n A lda info = None.
Proof.
  intros HC Hn Hm. unfold getrf_nopivot.
  destruct (LoopRead _ _ _ _ _ _) as [B|]; simpl; [|reflexivity].
  rewrite getrf_nopivot_core_out_of_bounds; auto.
Qed.

(** The result is a function of [m], [n], [A], [lda] and [info] alone:
    two template instances, with any contents of the uninitialised
    arrays, return the same. *)
Lemma getrf_nopivot_indep (NRMAX1 NCMAX1 NCU1 NRMAX2 NCMAX2 NCU2 : Z)
    (junkA1 junkP1 junkA2 junkP2 : Z -> Z -> Z -> T)
    (m n : Z) (A : list T) (lda info : Z) :
  template_ok NRMAX1 NCMAX1 NCU1 -> template_ok NRMAX2 NCMAX2 NCU2 ->
  m <= NRMAX1 -> m <= NRMAX2 -> n <= NCMAX1 -> n <= NCMAX2 ->
  (m <= NCMAX1 + 1 <-> m <= NCMAX2 + 1) ->
  getrf_nopivot NRMAX1 NCMAX1 NCU1 junkA1 junkP1 m n A lda info =
  getrf_nopivot NRMAX2 NCMAX2 NCU2 junkA2 junkP2 m n A lda info.
Proof.
  intros Hok1 Hok2 Hm1 Hm2 Hn1 Hn2 Hsame.
  destruct (Z.le_gt_cases m (NCMAX1 + 1)) as [Hs|Hs].
  2:{ destruct Hok1 as [_ [_ [HC1 _]]]. destruct Hok2 as [_ [_ [HC2 _]]].
      rewrite !getrf_nopivot_out_of_bounds; try lia. reflexivity. }
  assert (m <= NCMAX2 + 1) as Hs2 by (apply Hsame; exact Hs).
  destruct (template_lanes Hok1) as [HR1 [HRm1 Hrange1]].
  destruct (template_lanes Hok2) as [HR2 [HRm2 Hrange2]].
  destruct Hok1 as [HN1 [_ [HC1 _]]]. destruct Hok2 as [HN2 [_ [HC2 _]]].
  pose (d := junkA1 0 0 0).
  unfold getrf_nopivot.
  set (NRCU1 := Z.quot (NRMAX1 + NCU1 - 1) NCU1) in *.
  set (NRCU2 := Z.quot (NRMAX2 + NCU2 - 1) NCU2) in *.
  assert (ext_ok m n lda A ->
          exists B1 B2 f1 f2,
            LoopRead NCU1 m n A lda (fresh3 NCU1 NRCU1 NCMAX1 junkA1) = Some B1 /\
            LoopRead NCU2 m n A lda (fresh3 NCU2 NRCU2 NCMAX2 junkA2) = Some B2 /\
            view3 NCU1 NRCU1 NCMAX1 B1 f1 /\ view3 NCU2 NRCU2 NCMAX2 B2 f2 /\
            agree m n (logical NCU1 f1) (logical NCU2 f2)) as Hload.
  { intros Hext.
    destruct (@LoopRead_spec _ NRCU1 NCMAX1 NCU1 HN1 d m n lda A _ junkA1
                ltac:(lia) Hn1 Hext (@view3_fresh3 _ NCU1 NRCU1 NCMAX1 junkA1))
      as [B1 [E1 H1]].
    destruct (@LoopRead_spec _ NRCU2 NCMAX2 NCU2 HN2 d m n lda A _ junkA2
                ltac:(lia) Hn2 Hext (@view3_fresh3 _ NCU2 NRCU2 NCMAX2 junkA2))
      as [B2 [E2 H2]].
    exists B1, B2. do 2 eexists. repeat split; eauto.
    eapply agree_trans; [now apply load_fun_logical|].
    apply agree_sym. now apply load_fun_logical. }
  destruct (LoopRead NCU1 m n A lda _) as [B1|] eqn:E1.
  - destruct (Hload (LoopRead_Some_ext E1))
      as [B1' [B2 [f1 [f2 [E1' [E2 [H1 [H2 Hag]]]]]]]].
    inversion E1'; subst B1'. rewrite E2. simpl.
    destruct (@getrf_nopivot_core_spec _ _ NRCU1 NCMAX1 NCU1 HN1 HR1 HC1 Hrange1
                junkP1 m n lda B1 _ ltac:(lia) Hn1 Hs H1)
      as [C1 [g1 [EC1 [HC1' Hag1]]]].
    destruct (@getrf_nopivot_core_spec _ _ NRCU2 NCMAX2 NCU2 HN2 HR2 HC2 Hrange2
                junkP2 m n lda B2 _ ltac:(lia) Hn2 Hs2 H2)
      as [C2 [g2 [EC2 [HC2' Hag2]]]].
    rewrite EC1 EC2. simpl.
    rewrite (@LoopWrite_agree _ NRCU1 NCMAX1 NCU1 NRCU2 NCMAX2 NCU2 m n lda
               C1 C2 g1 g2 A); auto; try lia.
    eapply agree_trans; [exact Hag1|].
    eapply agree_trans; [|apply agree_sym; exact Hag2].
    unfold lu_sweep. destruct (Z.le_gt_cases m 0) as [Hm0|Hm0].
    + replace (Z.to_nat (m - 1)) with O by lia. exact Hag.
    + apply (@lu_steps_agree _ _ m n); [lia | exact Hag].
  - destruct (LoopRead NCU2 m n A lda _) as [B2|] eqn:E2; [|reflexivity].
    destruct (Hload (LoopRead_Some_ext E2)) as [B1 [_ [_ [_ [E1' _]]]]].
    congruence.
Qed.

End Whole.

Lemma rd_ext {X : Type} (a b : list X) :
  (forall k, rd a k = rd b k) -> a = b.
Proof.
  intros H. apply nth_error_ext. intros k.
  pose proof (H (Z.of_nat k)) as Hk. unfold rd in Hk.
  destruct (Z.ltb_spec (Z.of_nat k) 0); [lia|].
  now rewrite Nat2Z.id in Hk.
Qed.

(** * Properties of the routine *)

Ltac template :=
  unfold template_ok; repeat split; try lia; try reflexivity.

Section Claims.

Context {T : Type} {ST : Scalar T}.

(** C5. [getrf_nopivot] never assigns [info]: whatever the input, and
    whatever the pivots met during elimination, the value of [info] on
    return is the value the caller passed in. *)
Theorem info_never_set (NRMAX NCMAX NCU : Z)
    (junkA junkP : Z -> Z -> Z -> T) (m n : Z) (A : list T) (lda info : Z)
    (A' : list T) (info' : Z) :
  getrf_nopivot NRMAX NCMAX NCU junkA junkP m n A lda info = Some (A', info') ->
  info' = info.
Proof.
  unfold getrf_nopivot.
  destruct (LoopRead _ _ _ _ _ _) as [B|]; simpl; [|discriminate].
  destruct (getrf_nopivot_core _ _ _ _ _ _ _ _) as [B'|]; simpl; [|discriminate].
  destruct (LoopWrite _ _ _ _ _ _) as [A1|]; simpl; [|discriminate].
  intros H. inversion H. reflexivity.
Qed.

(** C6. For a fixed input [A], [m], [n], [lda], the result does not
    depend on the lane count: two lane counts, each with any contents
    of its uninitialised arrays, have the same outcome (the same
    returned buffer, or no defined result for either).  They return a
    buffer when the sweep stays inside the arrays ([m <= NCMAX + 1])
    and the external buffer holds the matrix.  No law of arithmetic is
    used: every cell receives the same operations in the same order. *)
Theorem lane_count_invariance (NRMAX NCMAX NCU1 NCU2 : Z)
    (junkA1 junkP1 junkA2 junkP2 : Z -> Z -> Z -> T)
    (m n : Z) (A : list T) (lda info : Z) :
  template_ok NRMAX NCMAX NCU1 -> template_ok NRMAX NCMAX NCU2 ->
  m <= NRMAX -> n <= NCMAX ->
  getrf_nopivot NRMAX NCMAX NCU1 junkA1 junkP1 m n A lda info =
  getrf_nopivot NRMAX NCMAX NCU2 junkA2 junkP2 m n A lda info /\
  (m <= NCMAX + 1 -> ext_ok m n lda A ->
   exists A',
     getrf_nopivot NRMAX NCMAX NCU1 junkA1 junkP1 m n A lda info
       = Some (A', info)).
Proof.
  intros H1 H2 Hm Hn. split.
  - apply getrf_nopivot_indep; auto. tauto.
  - intros Hmc Hext.
    destruct (@getrf_nopivot_spec _ _ NRMAX NCMAX NCU1 junkA1 junkP1 m n A lda
                info (junkA1 0 0 0) H1 Hm Hn Hmc Hext) as [A' [Hrun _]].
    now exists A'.
Qed.

(** C9. Padding noninterference: two runs of the same template instance
    on the same input that differ in the initial contents of [matA]
    and of [pivot] have the same outcome (the same returned buffer, or
    no defined result for either).  They return a buffer when the sweep
    stays inside the arrays ([m <= NCMAX + 1]) and the external buffer
    holds the matrix. *)
Theorem padding_noninterference (NRMAX NCMAX NCU : Z)
    (junkA1 junkP1 junkA2 junkP2 : Z -> Z -> Z -> T)
    (m n : Z) (A : list T) (lda info : Z) :
  template_ok NRMAX NCMAX NCU -> m <= NRMAX -> n <= NCMAX ->
  getrf_nopivot NRMAX NCMAX NCU junkA1 junkP1 m n A lda info =
  getrf_nopivot NRMAX NCMAX NCU junkA2 junkP2 m n A lda info /\
  (m <= NCMAX + 1 -> ext_ok m n lda A ->
   exists A',
     getrf_nopivot NRMAX NCMAX NCU junkA1 junkP1 m n A lda info
       = Some (A', info)).
Proof.
  intros H Hm Hn. split.
  - apply getrf_nopivot_indep; auto. tauto.
  - intros Hmc Hext.
    destruct (@getrf_nopivot_spec _ _ NRMAX NCMAX NCU junkA1 junkP1 m n A lda
                info (junkA1 0 0 0) H Hm Hn Hmc Hext) as [A' [Hrun _]].
    now exists A'.
Qed.

(** C10. External-buffer frame: a run that returns leaves the length of
    the external buffer and every element whose offset is not
    [r * lda + c] with [0 <= r < m] and [0 <= c < n] as they were. *)
Theorem external_frame (NRMAX NCMAX NCU : Z)
    (junkA junkP : Z -> Z -> Z -> T) (m n : Z) (A : list T) (lda info : Z)
    (A' : list T) (info' : Z) :
  getrf_nopivot NRMAX NCMAX NCU junkA junkP m n A lda info = Some (A', info') ->
  len A' = len A /\
  forall k, (forall r c, 0 <= r < m -> 0 <= c < n -> k <> r * lda + c) ->
            rd A' k = rd A k.
Proof.
  unfold getrf_nopivot.
  destruct (LoopRead _ _ _ _ _ _) as [B|]; simpl; [|discriminate].
  destruct (getrf_nopivot_core _ _ _ _ _ _ _ _) as [B'|]; simpl; [|discriminate].
  destruct (LoopWrite _ _ _ _ _ _) as [A1|] eqn:E; simpl; [|discriminate].
  intros H. inversion H; subst. exact (LoopWrite_frame E).
Qed.

(** C7. With [m = 1] the sweep loop of [getrf_nopivot_core] executes no
    step and returns the lane buffer it received, and [getrf_nopivot]
    returns the external buffer it received: every [A[0 * lda + c]],
    [0 <= c < n], and every other element, is the original one. *)
Theorem single_row_unchanged (NRMAX NCMAX NCU : Z)
    (junkA junkP : Z -> Z -> Z -> T) (n : Z) (A : list T) (lda info : Z) :
  template_ok NRMAX NCMAX NCU -> n <= NCMAX -> n <= len A ->
  (forall B, getrf_nopivot_core (Z.quot (NRMAX + NCU - 1) NCU) NCMAX NCU
               junkP 1 n B lda = Some B) /\
  getrf_nopivot NRMAX NCMAX NCU junkA junkP 1 n A lda info = Some (A, info) /\
  (forall A' info',
     getrf_nopivot NRMAX NCMAX NCU junkA junkP 1 n A lda info = Some (A', info') ->
     forall c, 0 <= c < n -> rd A' (0 * lda + c) = rd A (0 * lda + c)).
Proof.
  intros Hok Hn Hlen.
  assert (getrf_nopivot NRMAX NCMAX NCU junkA junkP 1 n A lda info
          = Some (A, info)) as Hrun.
  { assert (ext_ok 1 n lda A) as Hext.
    { intros r c Hr Hc. assert (r = 0) as -> by lia. lia. }
    destruct (@getrf_nopivot_spec _ _ NRMAX NCMAX NCU junkA junkP 1 n A lda info
                (junkA 0 0 0) Hok ltac:(destruct Hok; lia) Hn
                ltac:(destruct Hok; lia) Hext)
      as [A' [Hrun [_ [Hframe Hval]]]].
    rewrite Hrun. do 2 f_equal. apply rd_ext. intros k.
    destruct (Z.le_gt_cases 0 k) as [H0|H0];
      [destruct (Z.lt_ge_cases k n) as [H1|H1]|].
    - assert (rd A' (0 * lda + k) = rd A (lda * 0 + k)) as E.
      { rewrite (Hval (@rows_disjoint_one 1 n lda ltac:(lia)) 0 k ltac:(lia)
                   ltac:(lia)).
        unfold lu_sweep. simpl.
        symmetry. apply (@ext_fun_rd _ (junkA 0 0 0) 1 n lda A 0 k Hext); lia. }
      replace (0 * lda + k) with k in E by lia.
      replace (lda * 0 + k) with k in E by lia. exact E.
    - apply Hframe. intros r c Hr Hc. assert (r = 0) as -> by lia. lia.
    - apply Hframe. intros r c Hr Hc. assert (r = 0) as -> by lia. lia. }
  split; [|split].
  - intros B. unfold getrf_nopivot_core. apply for_loop_empty. lia.
  - exact Hrun.
  - intros A' info' H c Hc. rewrite Hrun in H. inversion H. reflexivity.
Qed.

End Claims.

(** Concrete runs, over the rationals. *)

Lemma Qc_list_eqb_eq (u v : list Qc) : Qc_list_eqb u v = true -> u = v.
Proof.
  unfold Qc_list_eqb. revert v.
  induction u as [|x u IH]; intros [|y v]; simpl; try discriminate; auto.
  intros H. apply andb_prop in H. destruct H as [Hl H].
  apply andb_prop in H. destruct H as [Hxy H].
  f_equal.
  - apply Qc_is_canon. now apply Qeq_bool_iff.
  - apply IH. now rewrite Hl H.
Qed.

Lemma run_eqb_eq (o : option (list Qc * Z)) (v : list Qc) (info : Z) :
  run_eqb o v info = true -> o = Some (v, info).
Proof.
  unfold run_eqb. destruct o as [[u i]|]; [|discriminate].
  intros H. apply andb_prop in H. destruct H as [Hu Hi].
  apply Qc_list_eqb_eq in Hu. apply Z.eqb_eq in Hi. now subst.
Qed.

Ltac run := apply run_eqb_eq; vm_compute; reflexivity.

Lemma info_never_set_witness :
  getrf_nopivot 2 2 1 zeroQ zeroQ 2 2 A0 2 0
  = Some ([qc 0 1; qc 1 1; qc 0 1; qc 1 1], 0) /\ 0 = 0.
Proof.
  split; [run|].
  apply (@info_never_set _ _ 2 2 1 zeroQ zeroQ 2 2 A0 2 0
           [qc 0 1; qc 1 1; qc 0 1; qc 1 1] 0).
  run.
Defined.

Lemma lane_count_invariance_witness :
  getrf_nopivot 4 4 1 sevenQ zeroQ 3 3 A3 3 0 =
  getrf_nopivot 4 4 2 zeroQ sevenQ 3 3 A3 3 0 /\
  getrf_nopivot 4 4 2 zeroQ sevenQ 3 3 A3 3 0 = Some (A3_out, 0).
Proof.
  split; [|run].
  apply (@lane_count_invariance Qc _ 4 4 1 2); template.
Defined.

Lemma padding_noninterference_witness :
  getrf_nopivot 4 4 2 sevenQ sevenQ 3 3 A3 3 0 =
  getrf_nopivot 4 4 2 zeroQ zeroQ 3 3 A3 3 0 /\
  getrf_nopivot 4 4 2 zeroQ zeroQ 3 3 A3 3 0 = Some (A3_out, 0).
Proof.
  split; [|run].
  apply (@padding_noninterference Qc _ 4 4 2); template.
Defined.

Lemma external_frame_witness :
  getrf_nopivot 2 2 1 zeroQ zeroQ 2 2 A2_padded 3 0 = Some (A2_padded_out, 0) /\
  rd A2_padded_out 2 = rd A2_padded 2 /\
  rd A2_padded_out 5 = rd A2_padded 5.
Proof.
  assert (getrf_nopivot 2 2 1 zeroQ zeroQ 2 2 A2_padded 3 0
          = Some (A2_padded_out, 0)) as E by run.
  split; [exact E|].
  split; apply (external_frame E); intros r c Hr Hc; lia.
Defined.

Lemma single_row_unchanged_witness :
  getrf_nopivot 3 3 2 sevenQ sevenQ 1 3 [qc 4 1; qc 3 1; qc 2 1] 3 0
  = Some ([qc 4 1; qc 3 1; qc 2 1], 0).
Proof.
  apply (@single_row_unchanged _ _ 3 3 2 sevenQ sevenQ 3
           [qc 4 1; qc 3 1; qc 2 1] 3 0); [template | lia | vm_compute; discriminate].
Defined.

(** * Properties of one elimination step *)

Section StepClaims.

Context {T : Type} {ST : Scalar T}.

Variables NRCU NCMAX NCU : Z.
Hypothesis HNCU : 1 <= NCU.
Hypothesis HNRCU : 1 <= NRCU.
Hypothesis HNCMAX : 1 <= NCMAX.
Hypothesis Hrange : NRCU * NCMAX < 2 ^ 31.

Lemma cell_view (A : list (list (list T))) (f : Z -> Z -> Z -> T) (j c : Z) :
  view3 NCU NRCU NCMAX A f -> 0 <= j < NCU * NRCU -> 0 <= c < NCMAX ->
  cell NCU A j c = Some (logical NCU f j c).
Proof.
  intros HA Hj Hc. unfold cell, logical.
  destruct (@row_split NCU j HNCU ltac:(lia)) as [Ht [Hq _]].
  pose proof (@row_quot_lt NCU NRCU j HNCU Hj) as Hq'.
  apply HA; lia.
Qed.

Lemma sweep_Some_spec (m n : Z) (junk : Z -> Z -> T) (s : Z)
    (A A' : list (list (list T))) (f : Z -> Z -> Z -> T) :
  m <= NCU * NRCU -> n <= NCMAX -> 0 <= s < m - 1 ->
  view3 NCU NRCU NCMAX A f ->
  sweep NRCU NCMAX NCU m n junk s A = Some A' ->
  s < NCMAX /\ view3 NCU NRCU NCMAX A' (sweep_fun NCU m n junk s f).
Proof.
  intros Hm Hn Hs HA Hrun.
  destruct (Z.lt_ge_cases s NCMAX) as [Hlt|Hge].
  - split; [exact Hlt|].
    destruct (@sweep_spec _ _ NRCU NCMAX NCU HNCU HNRCU HNCMAX Hrange
                m n junk s A f ltac:(lia) ltac:(lia) Hm Hn HA) as [B [EB HB]].
    rewrite EB in Hrun. inversion Hrun; subst. exact HB.
  - rewrite sweep_out_of_bounds in Hrun; auto. discriminate.
Qed.

Lemma sweep_frozen (m n : Z) (junk : Z -> Z -> T) (s : Z)
    (A A' : list (list (list T))) (f : Z -> Z -> Z -> T) :
  m <= NCU * NRCU -> n <= NCMAX -> 0 <= s < m - 1 ->
  view3 NCU NRCU NCMAX A f ->
  sweep NRCU NCMAX NCU m n junk s A = Some A' ->
  forall j c, 0 <= j < NCU * NRCU -> 0 <= c < NCMAX -> j <= s \/ c < s ->
    cell NCU A' j c = cell NCU A j c.
Proof.
  intros Hm Hn Hs HA Hrun j c Hj Hc Hfro.
  destruct (sweep_Some_spec Hm Hn Hs HA Hrun) as [_ HA'].
  rewrite (cell_view HA' Hj Hc) (cell_view HA Hj Hc). f_equal.
  unfold logical, sweep_fun, upd_fun, div_fun.
  destruct (@row_split NCU j HNCU ltac:(lia)) as [_ [_ Hg]]. rewrite Hg.
  zbool; try reflexivity; exfalso; lia.
Qed.

(** C8. Frozen region: an elimination step [s] that returns leaves
    every entry [A[j][c]] with [j <= s] or [c < s] as it was, and so
    does any run of consecutive steps starting at [s].  Taken at
    [s + 1], the second part says that the pivot row [s] and the
    multiplier column [s] left by step [s] are never modified again. *)
Theorem frozen_region (m n : Z) (junkP : Z -> Z -> Z -> T) (s : Z)
    (A : list (list (list T))) (f : Z -> Z -> Z -> T) :
  m <= NCU * NRCU -> n <= NCMAX -> 0 <= s < m - 1 ->
  view3 NCU NRCU NCMAX A f ->
  (forall A1,
     sweep NRCU NCMAX NCU m n (junkP s) s A = Some A1 ->
     forall j c, 0 <= j < NCU * NRCU -> 0 <= c < NCMAX -> j <= s \/ c < s ->
       cell NCU A1 j c = cell NCU A j c) /\
  (forall t A2, t <= m - 1 ->
     for_loop s t (fun s A => sweep NRCU NCMAX NCU m n (junkP s) s A) A
       = Some A2 ->
     forall j c, 0 <= j < NCU * NRCU -> 0 <= c < NCMAX -> j <= s \/ c < s ->
       cell NCU A2 j c = cell NCU A j c).
Proof.
  intros Hm Hn Hs HA. split.
  - intros A1 Hrun. exact (sweep_frozen Hm Hn Hs HA Hrun).
  - intros t A2 Ht Hrun.
    destruct (Z.le_gt_cases t s) as [Hts|Hts].
    { rewrite for_loop_empty in Hrun; [exact Hts|]. now inversion Hrun. }
    refine (@for_loop_post _
              (fun s' B =>
                 (exists g, view3 NCU NRCU NCMAX B g) /\
                 forall j c, 0 <= j < NCU * NRCU -> 0 <= c < NCMAX ->
                   j <= s \/ c < s -> cell NCU B j c = cell NCU A j c)
              s t _ A A2 ltac:(lia) _ _ Hrun).2.
    + split; [now exists f | reflexivity].
    + intros s' B B1 Hs' [[g Hg] Hfro] Hb. split.
      * exists (sweep_fun NCU m n (junkP s') s' g).
        apply (@sweep_Some_spec m n (junkP s') s' B B1 g); auto; lia.
      * intros j c Hj Hc Hjc. rewrite -(Hfro j c Hj Hc Hjc).
        apply (@sweep_frozen m n (junkP s') s' B B1 g); auto; lia.
Qed.

(** C3. Update stage.  In a step [s] that returns, lane [i] starts at
    the local offset [rs = s / NCU + 1] when [i <= s % NCU] and
    [rs = s / NCU] otherwise; the rows from [rs] on are exactly the rows
    of the lane whose index in the matrix exceeds [s]; in these rows
    every column [c > s] becomes [A[r][c] - A[r][s] * pivot[c]], the
    operands being those left by the division stage, and nothing else
    changes.  The copy [pivot] holds row [s] as it was before the
    division, for the columns [s .. n-1]. *)
Theorem update_stage (m n : Z) (junk : Z -> Z -> T) (s : Z)
    (A A' : list (list (list T))) (f : Z -> Z -> Z -> T) :
  m <= NCU * NRCU -> n <= NCMAX -> 0 <= s < m - 1 ->
  view3 NCU NRCU NCMAX A f ->
  sweep NRCU NCMAX NCU m n junk s A = Some A' ->
  exists P a00 A1,
    LoopPivot NCU s n A (fresh2 NCU NCMAX junk) = Some P /\
    rd2 P 0 s = Some a00 /\
    LoopDiv NCU s m a00 A = Some A1 /\
    LoopMat NRCU NCMAX NCU s P A1 = Some A' /\
    (forall i c, 0 <= i < NCU -> s <= c < n -> rd2 P i c = cell NCU A s c) /\
    forall i r, 0 <= i < NCU -> 0 <= r < NRCU ->
      let rs := if i <=? Z.rem s NCU then Z.quot s NCU + 1 else Z.quot s NCU in
      (rs <= r <-> s < grow NCU i r) /\
      forall c, 0 <= c < NCMAX ->
        rd3 A' i r c =
        if (rs <=? r) && (s <? c)
        then x <- rd3 A1 i r c ;; y <- rd3 A1 i r s ;; p <- rd2 P i c ;;
             Some (ssub x (smul y p))
        else rd3 A1 i r c.
Proof.
  intros Hm Hn Hs HA Hrun.
  destruct (sweep_Some_spec Hm Hn Hs HA Hrun) as [HsC _].
  unfold sweep in Hrun.
  destruct (@LoopPivot_spec _ NRCU NCMAX NCU HNCU s n A
              (fresh2 NCU NCMAX junk) f junk
              ltac:(lia) Hn HA (@view2_fresh2 _ NCU NCMAX junk)) as [P [EP HP]].
  rewrite EP in Hrun. simpl in Hrun.
  pose proof (HP 0 s ltac:(lia) ltac:(lia)) as Ea. rewrite Ea in Hrun.
  simpl in Hrun.
  destruct (@LoopDiv_spec _ _ NRCU NCMAX NCU HNCU s m
              (pivot_fun NCU s n junk f 0 s) A f ltac:(lia) Hm HA)
    as [A1 [E1 H1]].
  rewrite E1 in Hrun. simpl in Hrun.
  destruct (@LoopMat_spec _ _ NRCU NCMAX NCU HNCU HNRCU HNCMAX Hrange s P A1 _ _
              ltac:(lia) ltac:(lia) HP H1) as [A2 [E2 H2]].
  rewrite E2 in Hrun. inversion Hrun; subst A2.
  exists P, (pivot_fun NCU s n junk f 0 s), A1.
  repeat (split; [assumption|]). split.
  - intros i c Hi Hc. rewrite (HP i c Hi ltac:(lia)).
    rewrite (@cell_view A f s c HA ltac:(lia) ltac:(lia)). f_equal.
    unfold pivot_fun, logical. zbool; try reflexivity; exfalso; lia.
  - intros i r Hi Hr rs.
    pose proof (@first_row_below NCU HNCU s i r ltac:(lia) Hi ltac:(lia)) as Hfr.
    fold rs in Hfr. split; [exact Hfr|].
    intros c Hc. rewrite (H2 i r c Hi Hr Hc).
    rewrite (H1 i r c Hi Hr Hc) (H1 i r s Hi Hr ltac:(lia)).
    rewrite (HP i c Hi Hc). simpl. unfold upd_fun.
    destruct (Z.leb_spec rs r); destruct (Z.ltb_spec s (grow NCU i r));
      destruct (Z.ltb_spec s c);
      simpl; try reflexivity; exfalso; intuition lia.
Qed.

(** C2, for the steps whose pivot column lies inside the matrix
    ([s < n]): the division stage divides the entries of column [s]
    below the diagonal by the diagonal entry [A[s][s]], extracted before
    the division, and modifies nothing else; these quotients are the
    multipliers of step [s]. *)
Theorem division_stage_inside (m n : Z) (junk : Z -> Z -> T) (s : Z)
    (A : list (list (list T))) (f : Z -> Z -> Z -> T) :
  m <= NCU * NRCU -> n <= NCMAX -> 0 <= s < m - 1 -> s < n ->
  view3 NCU NRCU NCMAX A f ->
  division_stage NRCU NCMAX NCU m n junk s A.
Proof.
  intros Hm Hn Hs Hsn HA.
  destruct (@LoopPivot_spec _ NRCU NCMAX NCU HNCU s n A
              (fresh2 NCU NCMAX junk) f junk
              ltac:(lia) Hn HA (@view2_fresh2 _ NCU NCMAX junk)) as [P [EP HP]].
  pose proof (HP 0 s ltac:(lia) ltac:(lia)) as Ea.
  destruct (@LoopDiv_spec _ _ NRCU NCMAX NCU HNCU s m
              (pivot_fun NCU s n junk f 0 s) A f ltac:(lia) Hm HA)
    as [A1 [E1 H1]].
  exists P, (pivot_fun NCU s n junk f 0 s), A1.
  repeat (split; [assumption|]). split; [|split].
  - rewrite (@cell_view A f s s HA ltac:(lia) ltac:(lia)). f_equal.
    unfold pivot_fun, logical. zbool; try reflexivity; exfalso; lia.
  - intros j Hj.
    rewrite (@cell_view A1 _ j s H1 ltac:(lia) ltac:(lia)).
    rewrite (@cell_view A f j s HA ltac:(lia) ltac:(lia)). simpl. f_equal.
    unfold logical, div_fun.
    destruct (@row_split NCU j HNCU ltac:(lia)) as [_ [_ Hg]]. rewrite Hg.
    zbool; try reflexivity; exfalso; lia.
  - intros i r c Hi Hr Hc Hne.
    rewrite (H1 i r c Hi Hr Hc) (HA i r c Hi Hr Hc). f_equal.
    unfold div_fun. zbool; try reflexivity; exfalso; lia.
Qed.

End StepClaims.

(** ** The two matrices of the specification *)

Lemma getrf_nopivot_info {T : Type} {ST : Scalar T} (NRMAX NCMAX NCU : Z)
    (junkA junkP : Z -> Z -> Z -> T) (m n : Z) (A : list T) (lda info : Z)
    (A' : list T) :
  getrf_nopivot NRMAX NCMAX NCU junkA junkP m n A lda 0 = Some (A', 0) ->
  getrf_nopivot NRMAX NCMAX NCU junkA junkP m n A lda info = Some (A', info).
Proof.
  unfold getrf_nopivot.
  destruct (LoopRead _ _ _ _ _ _) as [B|]; simpl; [|discriminate].
  destruct (getrf_nopivot_core _ _ _ _ _ _ _ _) as [B'|]; simpl; [|discriminate].
  destruct (LoopWrite _ _ _ _ _ _) as [A1|]; simpl; [|discriminate].
  intros H. inversion H. reflexivity.
Qed.

Lemma A3_run : getrf_nopivot 3 3 1 zeroQ zeroQ 3 3 A3 3 0 = Some (A3_out, 0).
Proof. run. Qed.

Lemma A2_run : getrf_nopivot 2 2 1 zeroQ zeroQ 2 2 A2 2 0 = Some (A2_out, 0).
Proof. run. Qed.

Ltac small_index i :=
  match goal with
  | H : 0 <= i < 2 |- _ =>
      assert (i = 0 \/ i = 1) as [->| ->] by lia; clear H
  | H : 0 <= i < 3 |- _ =>
      assert (i = 0 \/ i = 1 \/ i = 2) as [->|[->| ->]] by lia; clear H
  end.

Lemma A3_product (i j : Z) :
  0 <= i < 3 -> 0 <= j < 3 ->
  LU_product 3 3 (matrix_of 3 A3_out) i j = matrix_of 3 A3 i j.
Proof.
  intros Hi Hj. small_index i; small_index j;
    apply Qc_is_canon; vm_compute; reflexivity.
Qed.

Lemma A2_product (i j : Z) :
  0 <= i < 2 -> 0 <= j < 2 ->
  LU_product 2 2 (matrix_of 2 A2_out) i j = matrix_of 2 A2 i j.
Proof.
  intros Hi Hj. small_index i; small_index j;
    apply Qc_is_canon; vm_compute; reflexivity.
Qed.

(** C4, the example as printed in the specification, does not hold:
    the entry [(2,1)] of the result is [-1/2], not [1], and the last
    pivot is [1/2], not [0]. *)
Lemma concrete_scenarios_claimed_fails : ~ concrete_scenarios_claimed.
Proof.
  intros [H _]. rewrite A3_run in H.
  apply (f_equal (option_map (fun p => List.map this (fst p)))) in H.
  vm_compute in H. discriminate.
Qed.

(** C4, amended.  On [A3 = [[4,3,2],[2,1,1],[1,1,1]]] every template
    instance that holds a [3 x 3] matrix returns the buffer
    [[4,3,2],[1/2,-1/2,0],[1/4,-1/2,1/2]]: the last pivot is [1/2] and
    [L * U = A3].  On [A2 = [[4,3],[6,3]]] it returns
    [[4,3],[3/2,-3/2]], and [L * U = A2]. *)
Theorem concrete_scenarios (NRMAX NCMAX NCU : Z)
    (junkA junkP : Z -> Z -> Z -> Qc) (info : Z) :
  template_ok NRMAX NCMAX NCU -> 3 <= NRMAX -> 3 <= NCMAX ->
  (getrf_nopivot NRMAX NCMAX NCU junkA junkP 3 3 A3 3 info
     = Some (A3_out, info) /\
   rd A3_out 8 = Some (qc 1 2) /\
   forall i j, 0 <= i < 3 -> 0 <= j < 3 ->
     LU_product 3 3 (matrix_of 3 A3_out) i j = matrix_of 3 A3 i j) /\
  (getrf_nopivot NRMAX NCMAX NCU junkA junkP 2 2 A2 2 info
     = Some (A2_out, info) /\
   forall i j, 0 <= i < 2 -> 0 <= j < 2 ->
     LU_product 2 2 (matrix_of 2 A2_out) i j = matrix_of 2 A2 i j).
Proof.
  intros Hok HR HC. split; split.
  - apply getrf_nopivot_info. rewrite -A3_run.
    apply getrf_nopivot_indep; auto; try lia; template.
  - split; [reflexivity | exact A3_product].
  - apply getrf_nopivot_info. rewrite -A2_run.
    apply getrf_nopivot_indep; auto; try lia; template.
  - exact A2_product.
Qed.

Lemma concrete_scenarios_witness :
  getrf_nopivot 4 4 2 sevenQ sevenQ 3 3 A3 3 0 = Some (A3_out, 0) /\
  getrf_nopivot 4 4 2 sevenQ sevenQ 2 2 A2 2 0 = Some (A2_out, 0).
Proof.
  destruct (@concrete_scenarios 4 4 2 sevenQ sevenQ 0) as [[H3 _] [H2 _]];
    [template | lia | lia |].
  split; [exact H3 | exact H2].
Defined.

(** ** One step on a concrete lane buffer *)

Lemma B3_view : view3 2 2 3 B3 A3_lanes.
Proof. apply view3_fresh3. Qed.

Lemma frozen_region_witness :
  exists A1, sweep 2 3 2 3 3 (sevenQ 0) 0 B3 = Some A1 /\
    forall j c, 0 <= j < 2 * 2 -> 0 <= c < 3 -> j <= 0 \/ c < 0 ->
      cell 2 A1 j c = cell 2 B3 j c.
Proof.
  eexists. split; [vm_compute; reflexivity|].
  refine (proj1 (@frozen_region Qc _ 2 3 2 _ _ _ _ 3 3 sevenQ 0 B3 A3_lanes
                   _ _ _ B3_view) _ _); try lia; try reflexivity.
Defined.

Lemma update_stage_witness :
  exists A' P a00 A1,
    sweep 2 3 2 3 3 (sevenQ 0) 0 B3 = Some A' /\
    LoopPivot 2 0 3 B3 (fresh2 2 3 (sevenQ 0)) = Some P /\
    rd2 P 0 0 = Some a00 /\
    LoopDiv 2 0 3 a00 B3 = Some A1 /\
    LoopMat 2 3 2 0 P A1 = Some A'.
Proof.
  assert (exists A', sweep 2 3 2 3 3 (sevenQ 0) 0 B3 = Some A') as [A' E]
    by (eexists; vm_compute; reflexivity).
  destruct (@update_stage Qc _ 2 3 2 ltac:(lia) ltac:(lia) ltac:(lia)
              ltac:(reflexivity) 3 3 (sevenQ 0) 0 B3 A' A3_lanes
              ltac:(lia) ltac:(lia) ltac:(lia) B3_view E)
    as [P [a00 [A1 [HP [Ha [Hd [Hm _]]]]]]].
  exists A', P, a00, A1. auto.
Defined.

Lemma division_stage_inside_witness :
  division_stage 2 3 2 3 3 (sevenQ 0) 0 B3.
Proof.
  apply (@division_stage_inside Qc _ 2 3 2 ltac:(lia) 3 3 (sevenQ 0) 0 B3
           A3_lanes); try lia. exact B3_view.
Defined.

(** C2 as stated fails at a step [s >= n].  A [3 x 1] matrix in a
    template instance with [NCMAX = 2]: after step 0 the sweep executes
    step 1, [LoopPivot] copies nothing because [1 < n] is false, and the
    divisor is the cell [pivot[0][1]] as declared, not [A[1][1]]. *)
Lemma division_stage_outside_fails :
  exists B0 B1,
    LoopRead 1 3 1 [qc 1 1; qc 1 1; qc 1 1] 1
      (fresh3 1 3 2 (fun _ _ _ => qc 4 1)) = Some B0 /\
    sweep 3 2 1 3 1 (sevenQ 0) 0 B0 = Some B1 /\
    ~ division_stage 3 2 1 3 1 (sevenQ 1) 1 B1.
Proof.
  do 2 eexists. split; [vm_compute; reflexivity|].
  split; [vm_compute; reflexivity|].
  intros [P [a00 [A1 [HP [Ha [_ [Hc _]]]]]]].
  vm_compute in HP. inversion HP; subst P.
  vm_compute in Ha. inversion Ha; subst a00.
  apply (f_equal (option_map this)) in Hc.
  vm_compute in Hc. discriminate.
Qed.

(** * Reconstruction over a field

    Over a field the buffer the routine leaves holds the factors of the
    input: [L * U = A], when the leading principal minors of [A] are not
    zero and the sweep stays inside the arrays. *)

Section Algebra.

Variable F : fieldType.

Import GRing.Theory.

Lemma dot_ext (K : nat) (u v u' v' : Z -> F) :
  (forall k, 0 <= k < Z.of_nat K -> u k = u' k /\ v k = v' k) ->
  dot K u v = dot K u' v'.
Proof.
  induction K as [|K IH]; intros H; simpl; [reflexivity|].
  destruct (H (Z.of_nat K) ltac:(lia)) as [-> ->].
  rewrite IH; [|reflexivity]. intros k Hk. apply H. lia.
Qed.

Lemma dot_S (K : nat) (u v : Z -> F) :
  dot (S K) u v = sadd (dot K u v) (smul (u (Z.of_nat K)) (v (Z.of_nat K))).
Proof. reflexivity. Qed.

Lemma below_succ (K : Z) (M : Z -> Z -> F) (i j : Z) :
  0 <= K ->
  below (K + 1) M i j = sadd (below K M i j) (smul (M i K) (M K j)).
Proof.
  intros HK. unfold below.
  replace (Z.to_nat (K + 1)) with (S (Z.to_nat K)) by lia.
  simpl. now rewrite Z2Nat.id.
Qed.

Lemma partial_product_step (s : Z) (M : Z -> Z -> F) (i j : Z) :
  0 <= s -> 0 <= i -> 0 <= j ->
  (s < i -> j = s -> M s s <> 0%R) ->
  partial_product (s + 1) (lu_step s M) i j = partial_product s M i j.
Proof.
  intros Hs Hi Hj Hp. unfold partial_product.
  assert (forall K, K <= s -> K <= i -> K <= j ->
            below K (lu_step s M) i j = below K M i j) as Hbelow.
  { intros K HKs HKi HKj. unfold below. apply dot_ext. intros k Hk.
    unfold lu_step. split; zbool; try reflexivity; exfalso; lia. }
  destruct (Z.le_gt_cases i s) as [His|His].
  - (* row [i] is not below the pivot row *)
    replace (Z.min (Z.min i j) (s + 1)) with (Z.min (Z.min i j) s) by lia.
    rewrite Hbelow; try lia. f_equal.
    unfold lu_step. zbool; try reflexivity; exfalso; lia.
  - destruct (Z.lt_trichotomy j s) as [Hjs|[Hjs|Hjs]].
    + (* a column left of the pivot column *)
      replace (Z.min (Z.min i j) (s + 1)) with (Z.min (Z.min i j) s) by lia.
      rewrite Hbelow; try lia. f_equal.
      unfold lu_step. zbool; try reflexivity; exfalso; lia.
    + (* the pivot column: the multiplier times the pivot *)
      subst j.
      replace (Z.min (Z.min i s) (s + 1)) with (Z.min (Z.min i s) s) by lia.
      rewrite Hbelow; try lia. f_equal.
      unfold lu_step. rewrite Z.ltb_irrefl.
      destruct (Z.ltb_spec s (s + 1)); [|lia].
      destruct (Z.ltb_spec s i); [|lia]. simpl.
      rewrite Z.eqb_refl. apply divfK. apply/eqP. now apply Hp.
    + (* the trailing block: one more term of the sum *)
      replace (Z.min (Z.min i j) (s + 1)) with (s + 1) by lia.
      replace (Z.min (Z.min i j) s) with s by lia.
      rewrite below_succ; [lia|]. rewrite Hbelow; try lia.
      unfold lu_step.
      destruct (Z.ltb_spec j (s + 1)); [lia|].
      destruct (Z.ltb_spec j s); [lia|].
      destruct (Z.ltb_spec s i); [|lia].
      destruct (Z.ltb_spec s s); [lia|].
      destruct (Z.ltb_spec s j); [|lia].
      destruct (Z.eqb_spec j s); [lia|].
      rewrite Z.eqb_refl. simpl.
      rewrite -addrA. f_equal. rewrite addrC. apply subrK.
Qed.

Lemma partial_product_0 (M : Z -> Z -> F) (i j : Z) :
  0 <= j -> partial_product 0 M i j = M i j.
Proof.
  intros Hj. unfold partial_product, below.
  replace (Z.to_nat (Z.min (Z.min i j) 0)) with O by lia.
  destruct (Z.ltb_spec j 0); [lia|]. simpl. by rewrite add0r.
Qed.

(** The pivots of the steps [0 .. k-1] being nonzero, the partial
    product after [k] steps is the input. *)
Lemma partial_product_steps (k : nat) (a : Z -> Z -> F) (i j : Z) :
  0 <= i -> 0 <= j ->
  (forall s : nat, (s < k)%coq_nat -> Z.of_nat s < i -> j = Z.of_nat s ->
     lu_steps s a (Z.of_nat s) (Z.of_nat s) <> 0%R) ->
  partial_product (Z.of_nat k) (lu_steps k a) i j = a i j.
Proof.
  intros Hi Hj. induction k as [|k IH]; intros Hp.
  - now apply partial_product_0.
  - simpl lu_steps.
    replace (Z.of_nat (S k)) with (Z.of_nat k + 1) by lia.
    assert (Z.of_nat k < i -> j = Z.of_nat k ->
            lu_steps k a (Z.of_nat k) (Z.of_nat k) <> 0%R) as Hk.
    { intros H1 H2. apply (Hp k); auto. }
    rewrite (@partial_product_step (Z.of_nat k) (lu_steps k a) i j
               ltac:(lia) Hi Hj Hk).
    apply IH. intros s Hs. apply Hp. lia.
Qed.

(** A sum over [K > min i j] terms of [L[i][k] * U[k][j]] has
    [min i j] terms from below the diagonal and one diagonal term. *)
Lemma dot_LU (K : nat) (M : Z -> Z -> F) (i j : Z) :
  0 <= i -> 0 <= j -> Z.min i j < Z.of_nat K ->
  dot K (Lmat M i) (fun k => Umat M k j) =
  sadd (below (Z.min i j) M i j)
       (if j <? i then smul (M i j) (M j j) else M i j).
Proof.
  intros Hi Hj. induction K as [|K IH]; intros HK; [lia|].
  rewrite dot_S.
  destruct (Z.lt_ge_cases (Z.min i j) (Z.of_nat K)) as [Hlt|Hge].
  - rewrite (IH Hlt).
    set (t := smul (Lmat _ _ _) _).
    assert (t = 0%R) as ->.
    { unfold t, Lmat, Umat. simpl.
      zbool; try (exfalso; lia); rewrite ?mul0r ?mulr0; reflexivity. }
    simpl. by rewrite addr0.
  - assert (Z.of_nat K = Z.min i j) as EK by lia.
    f_equal.
    + unfold below. rewrite -EK Nat2Z.id. apply dot_ext. intros k Hk.
      unfold Lmat, Umat. split; zbool; try reflexivity; exfalso; lia.
    + rewrite EK. unfold Lmat, Umat. simpl.
      destruct (Z.ltb_spec j i).
      * replace (Z.min i j) with j by lia.
        zbool; try reflexivity; exfalso; lia.
      * replace (Z.min i j) with i by lia.
        zbool; try (exfalso; lia). by rewrite mul1r.
Qed.

Lemma partial_product_LU (K : nat) (s : Z) (M : Z -> Z -> F) (i j : Z) :
  0 <= i <= s -> 0 <= j -> Z.min i j < Z.of_nat K ->
  partial_product s M i j = dot K (Lmat M i) (fun k => Umat M k j).
Proof.
  intros Hi Hj HK. rewrite dot_LU; try lia. unfold partial_product.
  replace (Z.min (Z.min i j) s) with (Z.min i j) by lia. f_equal.
  zbool; try reflexivity; exfalso; lia.
Qed.

End Algebra.

Section Minors.

Variable F : fieldType.

Import GRing.Theory.

Lemma dot_sum (K : nat) (u v : Z -> F) :
  dot K u v = (\sum_(k < K) u (Z.of_nat k) * v (Z.of_nat k))%R.
Proof.
  elim: K => [|K IH]; first by rewrite big_ord0.
  by rewrite big_ord_recr /= -IH.
Qed.

(** A leading block that factors as [L * U] has the product of the
    diagonal of [U] as determinant. *)
Lemma leading_minor_LU (k : nat) (a M : Z -> Z -> F) :
  (forall i j : nat, (i < k)%coq_nat -> (j < k)%coq_nat ->
     a (Z.of_nat i) (Z.of_nat j) =
     dot k (Lmat M (Z.of_nat i)) (fun l => Umat M l (Z.of_nat j))) ->
  leading_minor k a = (\prod_(i < k) M (Z.of_nat i) (Z.of_nat i))%R.
Proof.
  move=> Ha. rewrite /leading_minor.
  pose (L := (\matrix_(i < k, j < k) Lmat M (Z.of_nat i) (Z.of_nat j))%R
               : 'M[F]_k).
  pose (U := (\matrix_(i < k, j < k) Umat M (Z.of_nat i) (Z.of_nat j))%R
               : 'M[F]_k).
  have -> : (\matrix_(i < k, j < k) a (Z.of_nat i) (Z.of_nat j))%R = (L *m U)%R.
  { apply/matrixP => i j. rewrite !mxE Ha; try (apply/ltP; exact: ltn_ord).
    rewrite dot_sum. apply: eq_bigr => l _. by rewrite !mxE. }
  rewrite det_mulmx.
  have -> : (\det L = 1)%R.
  { have HL : is_trig_mx L.
    { apply/is_trig_mxP => i j /ltP Hij. rewrite mxE /Lmat.
      destruct (Z.ltb_spec (Z.of_nat j) (Z.of_nat i)); [lia|].
      destruct (Z.eqb_spec (Z.of_nat j) (Z.of_nat i)); [lia|]. reflexivity. }
    rewrite (det_trig HL). apply: big1 => i _.
    by rewrite mxE /Lmat Z.ltb_irrefl Z.eqb_refl. }
  have -> : (\det U = \prod_(i < k) M (Z.of_nat i) (Z.of_nat i))%R.
  { have HU : is_trig_mx (U^T)%R.
    { apply/is_trig_mxP => i j /ltP Hij. rewrite !mxE /Umat.
      destruct (Z.leb_spec (Z.of_nat j) (Z.of_nat i)); [lia|]. reflexivity. }
    rewrite -det_tr (det_trig HU). apply: eq_bigr => i _.
    by rewrite !mxE /Umat Z.leb_refl. }
  by rewrite mul1r.
Qed.

(** Nonzero leading principal minors make every pivot nonzero. *)
Lemma pivots_nonzero (m n : Z) (a : Z -> Z -> F) :
  (forall k : nat, 1 <= Z.of_nat k <= Z.min m n -> leading_minor k a <> 0%R) ->
  forall s : nat, Z.of_nat s < Z.min m n ->
    lu_steps s a (Z.of_nat s) (Z.of_nat s) <> 0%R.
Proof.
  intros Hminor s. induction s as [s IH] using lt_wf_ind. intros Hs Hz.
  apply (Hminor (S s)); [lia|].
  assert (forall i j : nat, (i < S s)%coq_nat -> (j < S s)%coq_nat ->
            a (Z.of_nat i) (Z.of_nat j) =
            dot (S s) (Lmat (lu_steps s a) (Z.of_nat i))
              (fun l => Umat (lu_steps s a) l (Z.of_nat j))) as HLU.
  { intros i j Hi Hj.
    rewrite -(@partial_product_LU F (S s) (Z.of_nat s) (lu_steps s a)
                (Z.of_nat i) (Z.of_nat j) ltac:(lia) ltac:(lia) ltac:(lia)).
    symmetry. apply partial_product_steps; try lia.
    intros s' Hs' _ _. apply IH; lia. }
  by rewrite (leading_minor_LU HLU) big_ord_recr /= Hz mulr0.
Qed.

(** [L * U] reads the buffer inside the [m x n] region only. *)
Lemma LU_product_agree (m n : Z) (M1 M2 : Z -> Z -> F) (i j : Z) :
  agree m n M1 M2 -> 0 <= i < m -> 0 <= j < n ->
  LU_product m n M1 i j = LU_product m n M2 i j.
Proof.
  intros H Hi Hj. unfold LU_product. apply dot_ext. intros k Hk.
  unfold Lmat, Umat. split.
  - destruct (Z.ltb_spec k i); [apply H; lia | reflexivity].
  - destruct (Z.leb_spec k j); [apply H; lia | reflexivity].
Qed.

(** The recurrence computes the factors. *)
Lemma lu_sweep_reconstructs (m n : Z) (a : Z -> Z -> F) (i j : Z) :
  (forall k : nat, 1 <= Z.of_nat k <= Z.min m n -> leading_minor k a <> 0%R) ->
  0 <= i < m -> 0 <= j < n ->
  LU_product m n (lu_sweep m a) i j = a i j.
Proof.
  intros Hminor Hi Hj. unfold LU_product, lu_sweep.
  rewrite -(@partial_product_LU F (Z.to_nat (Z.min m n))
              (Z.of_nat (Z.to_nat (m - 1))) (lu_steps (Z.to_nat (m - 1)) a)
              i j ltac:(lia) ltac:(lia) ltac:(lia)).
  apply partial_product_steps; try lia.
  intros s Hs Hsi Hjs. apply (pivots_nonzero Hminor). lia.
Qed.

(** X15. Reconstruction, inside the bounds of the arrays: for an [m x n]
    matrix with [m <= NRMAX], [n <= NCMAX] and [m <= NCMAX + 1],
    stored with [lda >= n], whose leading principal minors are nonzero,
    the routine returns a buffer whose unit-lower part [L] and upper
    part [U] satisfy [L * U = A]. *)
Theorem getrf_nopivot_reconstructs (NRMAX NCMAX NCU : Z)
    (junkA junkP : Z -> Z -> Z -> F) (m n : Z) (A : list F) (lda info : Z) :
  template_ok NRMAX NCMAX NCU ->
  1 <= m <= NRMAX -> 1 <= n <= NCMAX -> m <= NCMAX + 1 ->
  n <= lda -> ext_ok m n lda A ->
  (forall k : nat, 1 <= Z.of_nat k <= Z.min m n ->
     leading_minor k (ext_fun 0%R lda A) <> 0%R) ->
  exists A',
    getrf_nopivot NRMAX NCMAX NCU junkA junkP m n A lda info = Some (A', info) /\
    forall i j, 0 <= i < m -> 0 <= j < n ->
      LU_product m n (ext_fun 0%R lda A') i j = ext_fun 0%R lda A i j.
Proof.
  intros Hok Hm Hn Hmc Hlda Hext Hminor.
  destruct (@getrf_nopivot_spec _ _ NRMAX NCMAX NCU junkA junkP m n A lda info
              0%R Hok ltac:(lia) ltac:(lia) Hmc Hext)
    as [A' [Hrun [_ [_ Hval]]]].
  exists A'. split; [exact Hrun|]. intros i j Hi Hj.
  rewrite -(lu_sweep_reconstructs Hminor Hi Hj).
  apply LU_product_agree; auto.
  intros r c Hr Hc. unfold ext_fun at 1.
  replace (lda * r + c) with (r * lda + c) by lia.
  now rewrite (Hval (@rows_disjoint_lda m n lda Hlda) r c Hr Hc).
Qed.

End Minors.

(** ** A matrix over the rationals of MathComp *)

Lemma unit_factors_minors (A : list rat) (k : nat) :
  (forall i j : nat, (i < 2)%coq_nat -> (j < 2)%coq_nat ->
     ext_fun (0%R : rat) 2 A (Z.of_nat i) (Z.of_nat j) =
     ext_fun (0%R : rat) 2 Aq (Z.of_nat i) (Z.of_nat j)) ->
  1 <= Z.of_nat k <= 2 ->
  leading_minor k (ext_fun (0%R : rat) 2 A) <> 0%R.
Proof.
  intros HA Hk.
  assert (forall i j : nat, (i < k)%coq_nat -> (j < k)%coq_nat ->
            ext_fun (0%R : rat) 2 A (Z.of_nat i) (Z.of_nat j) =
            dot k (Lmat (fun _ _ => 1%R) (Z.of_nat i))
              (fun l => Umat (fun _ _ => (1%R : rat)) l (Z.of_nat j))) as HLU.
  { intros i j Hi Hj. rewrite HA; try lia. revert i j Hi Hj.
    assert (k = 1%nat \/ k = 2%nat) as [->| ->] by lia; intros i j Hi Hj.
    - assert (i = 0%nat) as -> by lia. assert (j = 0%nat) as -> by lia.
      rewrite /ext_fun /rd /dot /Lmat /Umat /=.
      by rewrite GRing.mul1r GRing.add0r.
    - assert (i = 0%nat \/ i = 1%nat) as [->| ->] by lia;
      assert (j = 0%nat \/ j = 1%nat) as [->| ->] by lia;
      rewrite /ext_fun /rd /dot /Lmat /Umat /=;
      rewrite ?GRing.mul1r ?GRing.mul0r ?GRing.mulr0 ?GRing.add0r ?GRing.addr0 //. }
  rewrite (leading_minor_LU HLU).
  have -> : (\prod_(i < k) (1 : rat) = 1)%R by apply: big1.
  move=> H. move: (GRing.Theory.oner_neq0 rat). by rewrite H eqxx.
Qed.

Lemma getrf_nopivot_reconstructs_witness :
  exists A',
    getrf_nopivot 2 2 1 (fun _ _ _ => 0%R) (fun _ _ _ => 0%R) 2 2 Aq 2 0
      = Some (A', 0) /\
    forall i j, 0 <= i < 2 -> 0 <= j < 2 ->
      LU_product 2 2 (ext_fun (0%R : rat) 2 A') i j = ext_fun 0%R 2 Aq i j.
Proof.
  apply (@getrf_nopivot_reconstructs rat 2 2 1); try lia.
  - template.
  - intros r c Hr Hc. change (len Aq) with 4. lia.
  - intros k Hk. apply unit_factors_minors; [reflexivity | lia].
Defined.

(** C1, at an input inside the stated bounds.  [Aq_tall] is a [4 x 2]
    matrix with nonzero leading principal minors, [m = 4 <= NRMAX = 4]
    and [n = 2 <= NCMAX = 2], stored with [lda = 2] in a buffer that
    holds it.  The sweep runs the steps [s = 0, 1, 2]; step [2] reads
    [pivot[0][2]] and divides [A[..][..][2]], outside arrays of
    [NCMAX = 2] columns: the run has no defined result, for any lane
    count and any contents of the uninitialised arrays. *)
Theorem tall_matrix_out_of_bounds :
  (forall k : nat, 1 <= Z.of_nat k <= Z.min 4 2 ->
     leading_minor k (ext_fun (0%R : rat) 2 Aq_tall) <> 0%R) /\
  ext_ok 4 2 2 Aq_tall /\
  forall NCU junkA junkP info,
    getrf_nopivot 4 2 NCU junkA junkP 4 2 Aq_tall 2 info = None.
Proof.
  split; [|split].
  - intros k Hk. apply unit_factors_minors; [|lia].
    intros i j Hi Hj.
    assert (i = 0%nat \/ i = 1%nat) as [->| ->] by lia;
      assert (j = 0%nat \/ j = 1%nat) as [->| ->] by lia; reflexivity.
  - intros r c Hr Hc. change (len Aq_tall) with 8. lia.
  - intros NCU junkA junkP info.
    apply getrf_nopivot_out_of_bounds; lia.
Qed.

(** * Further properties of the three routines *)

(** ** More facts about arrays and loops *)

Lemma upd_same {X : Type} (a : list X) (k : nat) (x : X) :
  nth_error a k = Some x -> upd a k x = a.
Proof.
  revert k. induction a as [|h t IH]; intros [|k]; simpl; try discriminate.
  - intros H. inversion H. reflexivity.
  - intros H. f_equal. now apply IH.
Qed.

(** Storing in a cell the value it holds changes nothing. *)
Lemma wr_same {X : Type} (a : list X) (k : Z) (x : X) :
  rd a k = Some x -> wr a k x = Some a.
Proof.
  intros H. rewrite (wr_Some x (rd_in_range H)). f_equal. apply upd_same.
  unfold rd in H. destruct (Z.ltb_spec k 0); [discriminate | exact H].
Qed.

Lemma len_fresh1 {X : Type} (d : Z) (junk : Z -> X) :
  0 <= d -> len (fresh1 d junk) = d.
Proof.
  intros Hd. unfold len, fresh1. rewrite length_map length_seq. lia.
Qed.

Lemma view1_fresh1 {X : Type} (d : Z) (junk : Z -> X) :
  view1 d (fresh1 d junk) junk.
Proof.
  intros k Hk. rewrite rd_fresh1.
  destruct (Z.leb_spec 0 k); [|lia]. destruct (Z.ltb_spec k d); [|lia].
  reflexivity.
Qed.

Lemma shape2_fresh2 {X : Type} (d1 d2 : Z) (junk : Z -> Z -> X) :
  0 <= d1 -> 0 <= d2 -> shape2 d1 d2 (fresh2 d1 d2 junk).
Proof.
  intros H1 H2. split.
  - unfold fresh2. now apply len_fresh1.
  - intros r row. unfold fresh2. rewrite rd_fresh1.
    destruct ((0 <=? r) && (r <? d1)); [|discriminate].
    intros H. inversion H. now apply len_fresh1.
Qed.

Lemma wr2_shape2 {X : Type} (d1 d2 : Z) (a a' : list (list X)) (r c : Z) (x : X) :
  shape2 d1 d2 a -> wr2 a r c x = Some a' -> shape2 d1 d2 a'.
Proof.
  intros [Hl Hrow] Hw. unfold wr2 in Hw.
  destruct (rd a r) as [row|] eqn:Er; simpl in Hw; [|discriminate].
  destruct (wr row c x) as [row'|] eqn:Ew; simpl in Hw; [|discriminate].
  split.
  - rewrite (len_wr Hw). exact Hl.
  - intros r' row1 Hr'. rewrite (rd_wr r' Hw) in Hr'.
    destruct (Z.eqb_spec r' r) as [->|Hne].
    + inversion Hr'; subst row1. rewrite (len_wr Ew). now apply (Hrow r).
    + now apply (Hrow r').
Qed.

(** A loop does not return when, under an invariant of its state, one
    of its iterations cannot succeed. *)
Lemma for_loop_fail_inv {St : Type} (Inv : St -> Prop) (lo hi k : Z)
    (body : Z -> St -> option St) (st : St) :
  lo <= k < hi -> Inv st ->
  (forall i st st', lo <= i < k -> Inv st -> body i st = Some st' -> Inv st') ->
  (forall st, Inv st -> body k st = None) ->
  for_loop lo hi body st = None.
Proof.
  intros Hk H0 Hstep Hf. remember (Z.to_nat (k - lo)) as d eqn:Ed.
  revert lo st Hk Ed H0 Hstep. induction d as [|d IH]; intros lo st Hk Ed H0 Hstep.
  - assert (lo = k) as -> by lia.
    rewrite for_loop_unfold; [lia|]. now rewrite (Hf st H0).
  - rewrite for_loop_unfold; [lia|].
    destruct (body lo st) as [st1|] eqn:Eb; simpl; [|reflexivity].
    apply IH; try lia.
    + apply (Hstep lo st st1); auto. lia.
    + intros i st2 st3 Hi. apply Hstep. lia.
Qed.

Lemma to_unsigned_negative (z : Z) :
  - 2 ^ 32 <= z < 0 -> to_unsigned z = z + 2 ^ 32.
Proof.
  intros H. unfold to_unsigned. symmetry.
  apply (Z.mod_unique z (2 ^ 32) (-1)); lia.
Qed.


Lemma block_index_bound (a b q t : Z) :
  0 <= q < a -> 0 <= t < b -> 0 <= q * b + t < a * b.
Proof. intros Hq Ht. nia. Qed.

(** ** [rowUpdate] on a block *)

Section RowUpdate.

Context {T : Type} {ST : Scalar T}.

(** X1. [rowUpdate] on a block inside the lane.  For a lane of [NRCU]
    rows and [NCMAX] columns with [NRCU * NCMAX < 2^31], a block of the
    rows [rs .. re] ([0 <= rs], [re < NRCU]; [re = rs - 1] is the empty
    block) and a pivot column [cs] with [0 <= cs <= ce < NCMAX], the
    call returns; every cell [(r, c)] with [rs <= r <= re] and
    [cs < c <= ce] holds [A[r][c] - A[r][cs] * pivot[c]], all three
    operands being the values before the call, and every other cell of
    the lane, column [cs] included, is unchanged. *)
Theorem rowUpdate_block (NRCU NCMAX : Z) (A : list (list T)) (pivot : list T)
    (f : Z -> Z -> T) (p : Z -> T) (rs re cs ce : Z) :
  1 <= NRCU -> 1 <= NCMAX -> NRCU * NCMAX < 2 ^ 31 ->
  0 <= rs -> rs <= re + 1 -> re < NRCU ->
  0 <= cs -> cs <= ce -> ce < NCMAX ->
  view2 NRCU NCMAX A f -> view1 NCMAX pivot p ->
  exists A', rowUpdate A pivot rs re cs ce = Some A' /\
             view2 NRCU NCMAX A' (block_fun rs re cs ce p f).
Proof.
  intros HR HC Hrange Hrs Hre Hre' Hcs0 Hce Hce' HA HP.
  assert (0 <= cs < NCMAX) as Hcs by lia.
  unfold rowUpdate. rewrite (HP cs Hcs). simpl.
  set (nrows := re - rs + 1). set (ncols := ce - cs).
  assert (0 <= nrows <= NRCU) as Hnr by (unfold nrows; lia).
  assert (0 <= ncols < NCMAX) as Hnc by (unfold ncols; lia).
  assert (NRCU < 2 ^ 31 /\ NCMAX < 2 ^ 31) as [HRi HCi] by (split; nia).
  assert (0 <= nrows * ncols < 2 ^ 31) as Hb by nia.
  rewrite (@to_unsigned_small (nrows * ncols)); [lia|].
  rewrite (@to_unsigned_small ncols); [lia|].
  rewrite (@to_unsigned_small rs); [lia|].
  rewrite (@to_unsigned_small cs); [lia|].
  pose (g := fun (i r c : Z) =>
    if (rs <=? r) && (r <=? re) && (cs <? c) && (c <=? ce)
       && ((r - rs) * ncols + (c - cs - 1) <? i)
    then ssub (f r c) (smul (f r cs) (p c)) else f r c).
  destruct (@for_loop_inv _ (fun i A => view2 NRCU NCMAX A (g i)) 0
              (nrows * ncols)
              (fun i A =>
                 x <- rd2 A (to_int (i / ncols + rs))
                        (to_int (i mod ncols + cs + 1)) ;;
                 y <- rd2 A (to_int (i / ncols + rs)) cs ;;
                 p0 <- rd pivot (to_int (i mod ncols + cs + 1)) ;;
                 wr2 A (to_int (i / ncols + rs))
                   (to_int (i mod ncols + cs + 1)) (ssub x (smul y p0))) A)
    as [A' [Hrun Hfin]].
  - lia.
  - apply (view2_ext HA). intros r c Hr Hc. unfold g.
    destruct ((rs <=? r) && (r <=? re) && (cs <? c) && (c <=? ce)) eqn:E;
      simpl; [|reflexivity].
    apply andb_prop in E. destruct E as [E E4].
    apply andb_prop in E. destruct E as [E E3].
    apply andb_prop in E. destruct E as [E1 E2].
    apply Z.leb_le in E1, E2, E4. apply Z.ltb_lt in E3.
    pose proof (@block_index_bound nrows ncols (r - rs) (c - cs - 1)
                  ltac:(unfold nrows; lia) ltac:(unfold ncols; lia)) as Hix.
    destruct (Z.ltb_spec ((r - rs) * ncols + (c - cs - 1)) 0); [exfalso; lia|].
    reflexivity.
  - intros i B Hi HB.
    assert (0 < ncols) as Hpos by nia.
    pose proof (Z.div_mod i ncols ltac:(lia)) as Hdm.
    pose proof (Z.mod_pos_bound i ncols Hpos) as Hmb.
    assert (0 <= i / ncols < nrows) as Hq.
    { split; [apply Z.div_pos; lia | apply Z.div_lt_upper_bound; nia]. }
    set (q := i / ncols) in *. set (t := i mod ncols) in *.
    rewrite (@to_int_small (q + rs)); [unfold nrows in *; lia|].
    rewrite (@to_int_small (t + cs + 1)); [unfold ncols in *; lia|].
    assert (0 <= q + rs < NRCU) as Hr0 by (unfold nrows in *; lia).
    assert (0 <= t + cs + 1 < NCMAX) as Hc0 by (unfold ncols in *; lia).
    rewrite (HB _ _ Hr0 Hc0). simpl.
    rewrite (HB _ _ Hr0 Hcs). simpl.
    rewrite (HP _ Hc0). simpl.
    destruct (@wr2_Some _ B (q + rs) (t + cs + 1)
                (ssub (g i (q + rs) (t + cs + 1)) (smul (g i (q + rs) cs) (p (t + cs + 1))))
                _ (HB _ _ Hr0 Hc0)) as [B' HB'].
    exists B'. split; [exact HB'|].
    intros r c Hr Hc. rewrite (rd2_wr2 r c HB').
    destruct (Z.eqb_spec r (q + rs)) as [Er|Er]; simpl.
    + destruct (Z.eqb_spec c (t + cs + 1)) as [Ec|Ec]; simpl.
      * subst r c. f_equal. unfold g.
        replace (q + rs - rs) with q by lia.
        replace (t + cs + 1 - cs - 1) with t by lia.
        destruct (Z.ltb_spec cs cs); [lia|]. rewrite !andb_false_r. simpl.
        destruct (Z.leb_spec rs (q + rs)); [|lia].
        destruct (Z.leb_spec (q + rs) re); [|unfold nrows in *; lia].
        destruct (Z.ltb_spec cs (t + cs + 1)); [|lia].
        destruct (Z.leb_spec (t + cs + 1) ce); [|unfold ncols in *; lia].
        destruct (Z.ltb_spec (q * ncols + t) i); [lia|].
        destruct (Z.ltb_spec (q * ncols + t) (i + 1)); [|lia].
        reflexivity.
      * rewrite (HB _ _ Hr Hc). f_equal. unfold g. subst r.
        replace (q + rs - rs) with q by lia.
        destruct ((rs <=? q + rs) && (q + rs <=? re) && (cs <? c) && (c <=? ce));
          simpl; [|reflexivity].
        destruct (Z.ltb_spec (q * ncols + (c - cs - 1)) i);
          destruct (Z.ltb_spec (q * ncols + (c - cs - 1)) (i + 1));
          try reflexivity; exfalso; lia.
    + rewrite (HB _ _ Hr Hc). f_equal. unfold g.
      destruct ((rs <=? r) && (r <=? re) && (cs <? c) && (c <=? ce)) eqn:E;
        simpl; [|reflexivity].
      apply andb_prop in E. destruct E as [E E4].
      apply andb_prop in E. destruct E as [E E3].
      apply andb_prop in E. destruct E as [E1 E2].
      apply Z.leb_le in E1, E2, E4. apply Z.ltb_lt in E3.
      destruct (Z.ltb_spec ((r - rs) * ncols + (c - cs - 1)) i);
        destruct (Z.ltb_spec ((r - rs) * ncols + (c - cs - 1)) (i + 1));
        try reflexivity; exfalso; try lia.
      assert (r - rs = q) as Hq'; [|lia].
      unfold q. apply (Z.div_unique i ncols (r - rs) (c - cs - 1));
        unfold ncols in *; lia.
  - exists A'. split; [exact Hrun|].
    apply (view2_ext Hfin). intros r c Hr Hc. unfold g, block_fun.
    destruct ((rs <=? r) && (r <=? re) && (cs <? c) && (c <=? ce)) eqn:E;
      simpl; [|reflexivity].
    apply andb_prop in E. destruct E as [E E4].
    apply andb_prop in E. destruct E as [E E3].
    apply andb_prop in E. destruct E as [E1 E2].
    apply Z.leb_le in E1, E2, E4. apply Z.ltb_lt in E3.
    pose proof (@block_index_bound nrows ncols (r - rs) (c - cs - 1)
                  ltac:(unfold nrows; lia) ltac:(unfold ncols; lia)) as Hix.
    destruct (Z.ltb_spec ((r - rs) * ncols + (c - cs - 1)) (nrows * ncols));
      [reflexivity|].
    exfalso. lia.
Qed.

(** X2. [rowUpdate] with a negative column count.  The loop counter of
    [LoopMulSub] is [unsigned]: when [ce < cs] and the block has at
    least one row, the bound [nrows * ncols] is negative and converts to
    a value of at least [2^31], so that the loop walks along row [rs]
    past its last column: on a lane of the declared dimensions the call
    has no defined result, whatever the lane and the pivot hold. *)
Theorem rowUpdate_negative_columns (NRCU NCMAX : Z) (A : list (list T))
    (pivot : list T) (rs re cs ce : Z) :
  shape2 NRCU NCMAX A -> NRCU < 2 ^ 31 -> NCMAX < 2 ^ 31 ->
  0 <= rs -> rs <= re -> re < NRCU -> 0 <= cs < NCMAX -> ce < cs ->
  - 2 ^ 31 <= (re - rs + 1) * (ce - cs) ->
  rowUpdate A pivot rs re cs ce = None.
Proof.
  intros Hsh HRi HCi Hrs Hre Hre' Hcs Hce Hprod.
  assert (2 ^ 31 = 2147483648) as E31 by reflexivity.
  assert (2 ^ 32 = 4294967296) as E32 by reflexivity.
  unfold rowUpdate. destruct (rd pivot cs) as [a00|]; simpl; [|reflexivity].
  set (nrows := re - rs + 1) in *. set (ncols := ce - cs) in *.
  assert (1 <= nrows) as Hnr by (unfold nrows; lia).
  assert (- 2 ^ 31 <= ncols <= -1) as Hnc by (unfold ncols; nia).
  assert (nrows * ncols < 0) as Hneg by nia.
  rewrite (@to_unsigned_negative (nrows * ncols)); [lia|].
  rewrite (@to_unsigned_negative ncols); [lia|].
  rewrite (@to_unsigned_small rs); [lia|].
  rewrite (@to_unsigned_small cs); [lia|].
  apply (@for_loop_fail_inv _ (shape2 NRCU NCMAX) 0 _ (NCMAX - cs - 1)).
  - lia.
  - exact Hsh.
  - intros i B B' Hi HB Hbody.
    destruct (rd2 B _ _) as [x|]; simpl in Hbody; [|discriminate].
    destruct (rd2 B _ cs) as [y|]; simpl in Hbody; [|discriminate].
    destruct (rd pivot _) as [p0|]; simpl in Hbody; [|discriminate].
    exact (wr2_shape2 HB Hbody).
  - intros B [HBl HBrow].
    rewrite Z.div_small; [lia|]. rewrite Z.mod_small; [lia|].
    rewrite (@to_int_small (0 + rs)); [lia|].
    replace (NCMAX - cs - 1 + cs + 1) with NCMAX by lia.
    rewrite (@to_int_small NCMAX); [lia|].
    unfold rd2 at 1. simpl.
    destruct (rd B rs) as [row|] eqn:Er; simpl; [|reflexivity].
    rewrite (@rd_out_of_range _ row NCMAX); [|reflexivity].
    rewrite (HBrow rs row Er). lia.
Qed.

End RowUpdate.

Lemma rowUpdate_block_witness :
  exists A', rowUpdate lane23 pivot3 0 0 0 1 = Some A' /\
    view2 2 3 A'
      (block_fun 0 0 0 1 (fun c => qc (c + 1) 1)
         (fun r c => qc (3 * r + c + 1) 1)).
Proof.
  apply (@rowUpdate_block Qc _ 2 3 lane23 pivot3); try lia.
  - apply view2_fresh2.
  - apply view1_fresh1.
Defined.

Lemma rowUpdate_negative_columns_witness :
  rowUpdate lane23 pivot3 0 0 1 0 = None.
Proof.
  apply (@rowUpdate_negative_columns Qc _ 2 3); try lia.
  apply shape2_fresh2; lia.
Defined.

(** ** The steps of the sweep *)

Section StepProperties.

Context {T : Type} {ST : Scalar T}.

Variables NRCU NCMAX NCU : Z.
Hypothesis HNCU : 1 <= NCU.
Hypothesis HNRCU : 1 <= NRCU.
Hypothesis HNCMAX : 1 <= NCMAX.
Hypothesis Hrange : NRCU * NCMAX < 2 ^ 31.

(** X3. The lanes of [LoopMat] do not interfere.  At a step [s] inside
    the arrays the loop returns, and the lane [i] of its result is what
    [rowUpdate] returns on the lane [i] and the pivot copy [i] as they
    were before the loop: no iteration reads or writes what another
    one wrote, which is what unrolling the loop relies on. *)
Theorem LoopMat_lanes (s : Z) (P : list (list T)) (A : list (list (list T)))
    (p : Z -> Z -> T) (f : Z -> Z -> Z -> T) :
  0 <= s < NCMAX -> s < NCU * NRCU ->
  view2 NCU NCMAX P p -> view3 NCU NRCU NCMAX A f ->
  exists A', LoopMat NRCU NCMAX NCU s P A = Some A' /\
    forall i, 0 <= i < NCU ->
      exists Ai Pi Ai',
        rd A i = Some Ai /\ rd P i = Some Pi /\
        rowUpdate Ai Pi
          (if i <=? Z.rem s NCU then Z.quot s NCU + 1 else Z.quot s NCU)
          (NRCU - 1) s (NCMAX - 1) = Some Ai' /\
        rd A' i = Some Ai'.
Proof.
  intros Hs Hs' HP HA. unfold LoopMat.
  destruct (@row_split NCU s HNCU ltac:(lia)) as [Ht [Hq Hg]].
  pose proof (@row_quot_lt NCU NRCU s HNCU ltac:(lia)) as Hq'.
  pose (Inv := fun (i0 : Z) (B : list (list (list T))) =>
    (forall i, i0 <= i < NCU -> rd B i = rd A i) /\
    (forall i, 0 <= i < i0 ->
       exists Ai Pi Ai',
         rd A i = Some Ai /\ rd P i = Some Pi /\
         rowUpdate Ai Pi
           (if i <=? Z.rem s NCU then Z.quot s NCU + 1 else Z.quot s NCU)
           (NRCU - 1) s (NCMAX - 1) = Some Ai' /\
         rd B i = Some Ai')).
  destruct (@for_loop_inv _ Inv 0 NCU
              (fun i A =>
                 Ai <- rd A i ;;
                 Pi <- rd P i ;;
                 Ai' <- rowUpdate Ai Pi
                          (if i <=? Z.rem s NCU then Z.quot s NCU + 1
                           else Z.quot s NCU)
                          (NRCU - 1) s (NCMAX - 1) ;;
                 wr A i Ai') A)
    as [A' [Hrun [_ Hfin]]].
  - lia.
  - split; [reflexivity|]. intros i Hi. lia.
  - intros i0 B Hi0 [Hrest Hdone].
    destruct (view3_lane HNRCU HNCMAX HA Hi0) as [lane [El Hl]].
    destruct (view2_row HNCMAX HP Hi0) as [Pi [EP HPi]].
    rewrite (Hrest i0 ltac:(lia)) El EP. simpl.
    set (rs := if i0 <=? Z.rem s NCU then Z.quot s NCU + 1 else Z.quot s NCU).
    assert (0 <= rs <= NRCU) as Hrs.
    { unfold rs. destruct (Z.leb_spec i0 (Z.rem s NCU)); lia. }
    destruct (@rowUpdate_spec _ _ NRCU NCMAX lane Pi (f i0) (p i0) rs s
                HNRCU HNCMAX Hrange Hrs Hs Hl HPi) as [lane' [Eu _]].
    rewrite Eu. simpl.
    assert (0 <= i0 < len B) as Hin.
    { apply (@rd_in_range _ B i0 lane). rewrite (Hrest i0 ltac:(lia)). exact El. }
    rewrite (wr_Some lane' Hin). eexists. split; [reflexivity|].
    split.
    + intros i Hi. rewrite (rd_wr i (wr_Some lane' Hin)).
      destruct (Z.eqb_spec i i0); [lia|]. apply Hrest. lia.
    + intros i Hi. rewrite (rd_wr i (wr_Some lane' Hin)).
      destruct (Z.eqb_spec i i0) as [->|Hne].
      * exists lane, Pi, lane'. auto.
      * destruct (Hdone i ltac:(lia)) as [Ai [Pi' [Ai' [H1 [H2 [H3 H4]]]]]].
        exists Ai, Pi', Ai'. auto.
  - exists A'. split; [exact Hrun|]. exact Hfin.
Qed.

(** X4. The bounds of one step.  On a lane buffer of the declared
    dimensions, with [m <= NCU * NRCU] and [n <= NCMAX], a step [s] of
    the sweep ([0 <= s < m - 1]) returns exactly when its column index
    is inside the arrays, [s < NCMAX]; the number of columns [n] of the
    matrix plays no part. *)
Theorem sweep_returns_iff (m n : Z) (junk : Z -> Z -> T) (s : Z)
    (A : list (list (list T))) (f : Z -> Z -> Z -> T) :
  m <= NCU * NRCU -> n <= NCMAX -> 0 <= s < m - 1 ->
  view3 NCU NRCU NCMAX A f ->
  ((exists A', sweep NRCU NCMAX NCU m n junk s A = Some A') <-> s < NCMAX).
Proof.
  intros Hm Hn Hs HA. split.
  - intros [A' Hrun]. destruct (Z.lt_ge_cases s NCMAX) as [Hlt|Hge]; [exact Hlt|].
    rewrite (@sweep_out_of_bounds _ _ NRCU NCMAX NCU m n junk s A Hn Hge) in Hrun.
    discriminate.
  - intros Hlt.
    destruct (@sweep_spec _ _ NRCU NCMAX NCU HNCU HNRCU HNCMAX Hrange
                m n junk s A f ltac:(lia) ltac:(lia) Hm Hn HA) as [B [EB _]].
    now exists B.
Qed.

End StepProperties.

Lemma LoopMat_lanes_witness :
  exists A', LoopMat 2 3 2 0 (fresh2 2 3 (sevenQ 0)) B3 = Some A' /\
    forall i, 0 <= i < 2 ->
      exists Ai Pi Ai',
        rd B3 i = Some Ai /\ rd (fresh2 2 3 (sevenQ 0)) i = Some Pi /\
        rowUpdate Ai Pi (if i <=? Z.rem 0 2 then Z.quot 0 2 + 1 else Z.quot 0 2)
          (2 - 1) 0 (3 - 1) = Some Ai' /\
        rd A' i = Some Ai'.
Proof.
  apply (@LoopMat_lanes Qc _ 2 3 2 ltac:(lia) ltac:(lia) ltac:(lia)
           ltac:(reflexivity) 0 (fresh2 2 3 (sevenQ 0)) B3 (sevenQ 0) A3_lanes);
    try lia.
  - apply view2_fresh2.
  - exact B3_view.
Defined.

Lemma sweep_returns_iff_witness :
  (exists A', sweep 2 3 2 3 3 (sevenQ 0) 0 B3 = Some A') <-> 0 < 3.
Proof.
  apply (@sweep_returns_iff Qc _ 2 3 2 ltac:(lia) ltac:(lia) ltac:(lia)
           ltac:(reflexivity) 3 3 (sevenQ 0) 0 B3 A3_lanes); try lia.
  exact B3_view.
Defined.

(** ** The copies between the external buffer and the lanes *)

Section CopyProperties.

Context {T : Type} {ST : Scalar T}.

Lemma holds_ext_fun (d : T) (m n lda : Z) (A : list T) :
  ext_ok m n lda A -> holds m n lda A (ext_fun d lda A).
Proof. intros Hok r c Hr Hc. now apply (@ext_fun_rd _ d m n). Qed.

Lemma holds_ext_ok (m n lda : Z) (A : list T) (a : Z -> Z -> T) :
  holds m n lda A a -> ext_ok m n lda A.
Proof. intros H r c Hr Hc. exact (rd_in_range (H r c Hr Hc)). Qed.

Lemma holds_agree (d : T) (m n lda : Z) (A : list T) (a : Z -> Z -> T) :
  holds m n lda A a -> agree m n (ext_fun d lda A) a.
Proof. intros H r c Hr Hc. unfold ext_fun. now rewrite (H r c Hr Hc). Qed.

(** X5. The layout [LoopRead] builds.  When the external buffer holds
    every cell of the matrix and the lane buffer has room for it, the
    load returns; row [r] of the matrix lies in lane [r % NCU] at the
    local offset [r / NCU], where column [c] is [A[lda * r + c]]; the
    cells of the lane buffer that are not a cell of the matrix keep
    what they held. *)
Theorem LoopRead_layout (NRCU NCMAX NCU m n lda : Z) (A : list T)
    (B0 : list (list (list T))) (junk : Z -> Z -> Z -> T) :
  1 <= NCU -> m <= NCU * NRCU -> n <= NCMAX -> ext_ok m n lda A ->
  view3 NCU NRCU NCMAX B0 junk ->
  exists B, LoopRead NCU m n A lda B0 = Some B /\
    (forall r c, 0 <= r < m -> 0 <= c < n ->
       cell NCU B r c = rd A (lda * r + c)) /\
    (forall i q c, 0 <= i < NCU -> 0 <= q < NRCU -> 0 <= c < NCMAX ->
       ~ (grow NCU i q < m /\ c < n) -> rd3 B i q c = rd3 B0 i q c).
Proof.
  intros HN Hm Hn Hok HB0.
  destruct (@LoopRead_spec _ NRCU NCMAX NCU HN (junk 0 0 0) m n lda A B0 junk
              Hm Hn Hok HB0) as [B [EB HB]].
  exists B. split; [exact EB|]. split.
  - intros r c Hr Hc. unfold cell.
    destruct (@row_split NCU r HN ltac:(lia)) as [Ht [Hq Hg]].
    pose proof (@row_quot_lt NCU NRCU r HN ltac:(lia)) as Hq'.
    rewrite (HB _ _ c Ht (conj Hq Hq') ltac:(lia)).
    rewrite (@ext_fun_rd _ (junk 0 0 0) m n lda A r c Hok Hr Hc). f_equal.
    unfold load_fun. rewrite Hg.
    destruct (Z.ltb_spec r m); [|lia]. destruct (Z.ltb_spec c n); [|lia].
    reflexivity.
  - intros i q c Hi Hq Hc Hout.
    rewrite (HB i q c Hi Hq Hc) (HB0 i q c Hi Hq Hc). f_equal.
    unfold load_fun.
    destruct (Z.ltb_spec (grow NCU i q) m); destruct (Z.ltb_spec c n);
      simpl; try reflexivity.
    exfalso. apply Hout. lia.
Qed.

(** X6. Load and store are inverse copies.  Writing back the lane
    buffer [LoopRead] has just built returns the external buffer as it
    was, element for element, for any stride [lda], rows that overlap
    included: every store puts back the value that was read at the same
    offset. *)
Theorem load_store_round_trip (NRCU NCMAX NCU m n lda : Z) (A : list T)
    (B0 : list (list (list T))) (junk : Z -> Z -> Z -> T) :
  1 <= NCU -> m <= NCU * NRCU -> n <= NCMAX -> ext_ok m n lda A ->
  view3 NCU NRCU NCMAX B0 junk ->
  exists B, LoopRead NCU m n A lda B0 = Some B /\
            LoopWrite NCU m n lda B A = Some A.
Proof.
  intros HN Hm Hn Hok HB0.
  destruct (@LoopRead_spec _ NRCU NCMAX NCU HN (junk 0 0 0) m n lda A B0 junk
              Hm Hn Hok HB0) as [B [EB HB]].
  exists B. split; [exact EB|]. unfold LoopWrite.
  destruct (Z.le_gt_cases m 0) as [Hm0|Hm0].
  { apply for_loop_empty. exact Hm0. }
  destruct (@for_loop_inv _ (fun _ C => C = A) 0 m
              (fun r A =>
                 for_loop 0 n
                   (fun c A =>
                      x <- rd3 B (Z.rem r NCU) (Z.quot r NCU) c ;;
                      wr A (r * lda + c) x) A) A)
    as [A' [Hrun Hfin]].
  - lia.
  - reflexivity.
  - intros r0 C Hr0 ->.
    destruct (Z.le_gt_cases n 0) as [Hn0|Hn0].
    { exists A. split; [apply for_loop_empty; exact Hn0 | reflexivity]. }
    destruct (@row_split NCU r0 HN ltac:(lia)) as [Ht [Hq Hg]].
    pose proof (@row_quot_lt NCU NRCU r0 HN ltac:(lia)) as Hq'.
    apply (@for_loop_inv _ (fun _ C => C = A) 0 n); [lia | reflexivity|].
    intros c0 D Hc0 ->.
    rewrite (HB _ _ c0 Ht (conj Hq Hq') ltac:(lia)). simpl.
    exists A. split; [|reflexivity].
    apply wr_same. replace (r0 * lda + c0) with (lda * r0 + c0) by lia.
    rewrite (@ext_fun_rd _ (junk 0 0 0) m n lda A r0 c0 Hok Hr0 Hc0). f_equal.
    unfold load_fun. rewrite Hg.
    destruct (Z.ltb_spec r0 m); [|lia]. destruct (Z.ltb_spec c0 n); [|lia].
    reflexivity.
  - now rewrite Hrun Hfin.
Qed.

End CopyProperties.

Lemma LoopRead_layout_witness :
  exists B, LoopRead 2 3 3 A3 3 (fresh3 2 2 3 sevenQ) = Some B /\
    (forall r c, 0 <= r < 3 -> 0 <= c < 3 -> cell 2 B r c = rd A3 (3 * r + c)) /\
    (forall i q c, 0 <= i < 2 -> 0 <= q < 2 -> 0 <= c < 3 ->
       ~ (grow 2 i q < 3 /\ c < 3) ->
       rd3 B i q c = rd3 (fresh3 2 2 3 sevenQ) i q c).
Proof.
  apply (@LoopRead_layout Qc 2 3 2 3 3 3 A3 (fresh3 2 2 3 sevenQ) sevenQ);
    try lia.
  - intros r c Hr Hc. change (len A3) with 9. lia.
  - apply view3_fresh3.
Defined.

Lemma load_store_round_trip_witness :
  exists B, LoopRead 2 3 3 A3 2 (fresh3 2 2 3 sevenQ) = Some B /\
            LoopWrite 2 3 3 2 B A3 = Some A3.
Proof.
  apply (@load_store_round_trip Qc 2 3 2 3 3 2 A3 (fresh3 2 2 3 sevenQ) sevenQ);
    try lia.
  - intros r c Hr Hc. change (len A3) with 9. lia.
  - apply view3_fresh3.
Defined.

(** ** The routine as a whole *)

Section LuSteps.

Context {T : Type} {ST : Scalar T}.

(** The steps from [j] on leave row [j] alone. *)
Lemma lu_steps_row (k : nat) (M : Z -> Z -> T) (j c : Z) :
  0 <= j <= Z.of_nat k ->
  lu_steps k M j c = lu_steps (Z.to_nat j) M j c.
Proof.
  induction k as [|k IH]; intros Hj.
  - replace (Z.to_nat j) with O by lia. reflexivity.
  - destruct (Z.eq_dec j (Z.of_nat (S k))) as [->|Hne].
    + now rewrite Nat2Z.id.
    + simpl. unfold lu_step at 1.
      destruct (Z.ltb_spec (Z.of_nat k) j); [lia|]. apply IH. lia.
Qed.

Lemma lu_sweep_rows (m m' : Z) (M : Z -> Z -> T) (j c : Z) :
  0 <= j < m' -> m' <= m -> lu_sweep m M j c = lu_sweep m' M j c.
Proof.
  intros Hj Hm. unfold lu_sweep.
  rewrite (@lu_steps_row (Z.to_nat (m - 1)) M j c); [lia|].
  rewrite (@lu_steps_row (Z.to_nat (m' - 1)) M j c); [lia|].
  reflexivity.
Qed.

Lemma lu_sweep_row0 (m : Z) (M : Z -> Z -> T) (c : Z) :
  lu_sweep m M 0 c = M 0 c.
Proof.
  unfold lu_sweep. rewrite (@lu_steps_row (Z.to_nat (m - 1)) M 0 c); [lia|].
  reflexivity.
Qed.

Lemma lu_steps_col0 (k : nat) (M : Z -> Z -> T) (j : Z) :
  (1 <= k)%coq_nat -> 1 <= j ->
  lu_steps k M j 0 = sdiv (M j 0) (M 0 0).
Proof.
  induction k as [|k IH]; intros Hk Hj; [lia|].
  simpl. unfold lu_step at 1.
  destruct k as [|k].
  - simpl. destruct (Z.ltb_spec 0 j); [|lia]. reflexivity.
  - destruct (Z.eqb_spec 0 (Z.of_nat (S k))); [lia|].
    destruct (Z.ltb_spec (Z.of_nat (S k)) 0); [lia|].
    destruct (Z.ltb_spec (Z.of_nat (S k)) j); apply IH; lia.
Qed.

End LuSteps.

Section RoutineProperties.

Context {T : Type} {ST : Scalar T}.



(** X9. The routine performs right-looking elimination.  Inside the
    bounds of the arrays ([m <= NCMAX + 1]) and with rows that do not
    overlap ([n <= lda]), the buffer returned for a matrix [a] holds,
    at every cell, the result of the steps [0 .. m-2] of the recurrence
    [lu_step] applied to [a]: the distribution over lanes, the copies
    and the padding leave no trace.  The element type is arbitrary, so
    the equality is exact for floating-point types too. *)
Theorem getrf_nopivot_recurrence (NRMAX NCMAX NCU : Z)
    (junkA junkP : Z -> Z -> Z -> T) (m n : Z) (A : list T) (lda info : Z)
    (a : Z -> Z -> T) :
  template_ok NRMAX NCMAX NCU ->
  m <= NRMAX -> n <= NCMAX -> m <= NCMAX + 1 -> n <= lda ->
  holds m n lda A a ->
  exists A',
    getrf_nopivot NRMAX NCMAX NCU junkA junkP m n A lda info = Some (A', info) /\
    holds m n lda A' (lu_sweep m a).
Proof.
  intros Hok Hm Hn Hmc Hlda Ha.
  destruct (@getrf_nopivot_spec _ _ NRMAX NCMAX NCU junkA junkP m n A lda info
              (junkA 0 0 0) Hok Hm Hn Hmc (holds_ext_ok Ha))
    as [A' [Hrun [_ [_ Hval]]]].
  exists A'. split; [exact Hrun|]. intros r c Hr Hc.
  replace (lda * r + c) with (r * lda + c) by lia.
  rewrite (Hval (@rows_disjoint_lda m n lda Hlda) r c Hr Hc). f_equal.
  unfold lu_sweep.
  apply (@lu_steps_agree _ _ m n); [lia | | exact Hr | exact Hc].
  now apply holds_agree.
Qed.

(** X10. First row and first column of the result.  Inside the bounds
    of the arrays, row [0] of the returned matrix is row [0] of the
    input, and the entry [(r, 0)] of every row [r >= 1] is
    [A[r][0] / A[0][0]]: the division is made whatever [A[0][0]] is,
    zero included. *)
Theorem first_row_and_column (NRMAX NCMAX NCU : Z)
    (junkA junkP : Z -> Z -> Z -> T) (m n : Z) (A : list T) (lda info : Z)
    (a : Z -> Z -> T) :
  template_ok NRMAX NCMAX NCU ->
  m <= NRMAX -> n <= NCMAX -> m <= NCMAX + 1 -> n <= lda ->
  holds m n lda A a ->
  exists A',
    getrf_nopivot NRMAX NCMAX NCU junkA junkP m n A lda info = Some (A', info) /\
    (forall c, 1 <= m -> 0 <= c < n -> rd A' (lda * 0 + c) = Some (a 0 c)) /\
    (forall r, 1 <= r < m -> 1 <= n ->
       rd A' (lda * r + 0) = Some (sdiv (a r 0) (a 0 0))).
Proof.
  intros Hok Hm Hn Hmc Hlda Ha.
  destruct (@getrf_nopivot_spec _ _ NRMAX NCMAX NCU junkA junkP m n A lda info
              (junkA 0 0 0) Hok Hm Hn Hmc (holds_ext_ok Ha))
    as [A' [Hrun [_ [_ Hval]]]].
  pose proof (Hval (@rows_disjoint_lda m n lda Hlda)) as Hv.
  pose proof (@holds_agree _ (junkA 0 0 0) m n lda A a Ha) as Hag.
  exists A'. split; [exact Hrun|]. split.
  - intros c Hm1 Hc. replace (lda * 0 + c) with (0 * lda + c) by lia.
    rewrite (Hv 0 c ltac:(lia) Hc). f_equal.
    rewrite lu_sweep_row0. apply Hag; lia.
  - intros r Hr Hn1. replace (lda * r + 0) with (r * lda + 0) by lia.
    rewrite (Hv r 0 ltac:(lia) ltac:(lia)). f_equal.
    unfold lu_sweep. rewrite lu_steps_col0; try lia.
    rewrite (Hag r 0 ltac:(lia) ltac:(lia)) (Hag 0 0 ltac:(lia) ltac:(lia)).
    reflexivity.
Qed.

(** X11. The leading rows do not depend on the rows below them.
    Factoring the first [m'] rows and [n'] columns of a matrix gives,
    cell for cell, the leading [m' x n'] block of the factors of the
    whole matrix: an entry of the result is a function of the entries
    of the input above and to the left of it. *)
Theorem leading_block_consistent (NRMAX NCMAX NCU : Z)
    (junkA junkP junkA' junkP' : Z -> Z -> Z -> T)
    (m n m' n' : Z) (A : list T) (lda info : Z) :
  template_ok NRMAX NCMAX NCU ->
  m <= NRMAX -> n <= NCMAX -> m <= NCMAX + 1 -> n <= lda ->
  ext_ok m n lda A -> m' <= m -> n' <= n ->
  exists A1 A2,
    getrf_nopivot NRMAX NCMAX NCU junkA junkP m n A lda info = Some (A1, info) /\
    getrf_nopivot NRMAX NCMAX NCU junkA' junkP' m' n' A lda info
      = Some (A2, info) /\
    forall r c, 0 <= r < m' -> 0 <= c < n' ->
      rd A2 (lda * r + c) = rd A1 (lda * r + c).
Proof.
  intros Hok Hm Hn Hmc Hlda Hext Hm' Hn'.
  assert (ext_ok m' n' lda A) as Hext'.
  { intros r c Hr Hc. apply Hext; lia. }
  destruct (@getrf_nopivot_spec _ _ NRMAX NCMAX NCU junkA junkP m n A lda info
              (junkA 0 0 0) Hok Hm Hn Hmc Hext)
    as [A1 [Hrun1 [_ [_ Hval1]]]].
  destruct (@getrf_nopivot_spec _ _ NRMAX NCMAX NCU junkA' junkP' m' n' A lda info
              (junkA 0 0 0) Hok ltac:(lia) ltac:(lia) ltac:(lia) Hext')
    as [A2 [Hrun2 [_ [_ Hval2]]]].
  exists A1, A2. split; [exact Hrun1|]. split; [exact Hrun2|].
  intros r c Hr Hc. replace (lda * r + c) with (r * lda + c) by lia.
  rewrite (Hval1 (@rows_disjoint_lda m n lda Hlda) r c ltac:(lia) ltac:(lia)).
  rewrite (Hval2 (@rows_disjoint_lda m' n' lda ltac:(lia)) r c Hr Hc).
  f_equal. symmetry. now apply lu_sweep_rows.
Qed.

End RoutineProperties.

Lemma A3_holds : holds 3 3 3 A3 (matrix_of 3 A3).
Proof.
  apply holds_ext_fun. intros r c Hr Hc. change (len A3) with 9. lia.
Qed.



Lemma getrf_nopivot_recurrence_witness :
  exists A',
    getrf_nopivot 4 4 2 sevenQ sevenQ 3 3 A3 3 0 = Some (A', 0) /\
    holds 3 3 3 A' (lu_sweep 3 (matrix_of 3 A3)).
Proof.
  apply (@getrf_nopivot_recurrence Qc _ 4 4 2 sevenQ sevenQ 3 3 A3 3 0
           (matrix_of 3 A3)); try lia; [template | exact A3_holds].
Defined.

Lemma first_row_and_column_witness :
  exists A',
    getrf_nopivot 4 4 2 sevenQ sevenQ 3 3 A3 3 0 = Some (A', 0) /\
    (forall c, 1 <= 3 -> 0 <= c < 3 ->
       rd A' (3 * 0 + c) = Some (matrix_of 3 A3 0 c)) /\
    (forall r, 1 <= r < 3 -> 1 <= 3 ->
       rd A' (3 * r + 0)
       = Some (sdiv (matrix_of 3 A3 r 0) (matrix_of 3 A3 0 0))).
Proof.
  apply (@first_row_and_column Qc _ 4 4 2 sevenQ sevenQ 3 3 A3 3 0
           (matrix_of 3 A3)); try lia; [template | exact A3_holds].
Defined.

Lemma leading_block_consistent_witness :
  exists A1 A2,
    getrf_nopivot 4 4 2 sevenQ sevenQ 3 3 A3 3 0 = Some (A1, 0) /\
    getrf_nopivot 4 4 2 zeroQ zeroQ 2 2 A3 3 0 = Some (A2, 0) /\
    forall r c, 0 <= r < 2 -> 0 <= c < 2 ->
      rd A2 (3 * r + c) = rd A1 (3 * r + c).
Proof.
  apply (@leading_block_consistent Qc _ 4 4 2 sevenQ sevenQ zeroQ zeroQ
           3 3 2 2 A3 3 0); try lia; [template|].
  intros r c Hr Hc. change (len A3) with 9. lia.
Defined.

(** ** The result over a field *)

Section FieldProperties.

Variable F : fieldType.

Import GRing.Theory.



(** The entries of the result the factors of a leading block are made
    of. *)
Lemma leading_block_factors (m n : Z) (k : nat) (a M : Z -> Z -> F) :
  Z.of_nat k <= Z.min m n ->
  agree m n M (lu_sweep m a) ->
  (forall k' : nat, 1 <= Z.of_nat k' < Z.of_nat k -> leading_minor k' a <> 0%R) ->
  forall i j : nat, (i < k)%coq_nat -> (j < k)%coq_nat ->
    a (Z.of_nat i) (Z.of_nat j) =
    dot k (Lmat M (Z.of_nat i)) (fun l => Umat M l (Z.of_nat j)).
Proof.
  intros Hk Hag Hminor i j Hi Hj.
  assert (dot k (Lmat M (Z.of_nat i)) (fun l => Umat M l (Z.of_nat j)) =
          dot k (Lmat (lu_sweep m a) (Z.of_nat i))
            (fun l => Umat (lu_sweep m a) l (Z.of_nat j))) as ->.
  { apply dot_ext. intros l Hl. unfold Lmat, Umat. split.
    - destruct (Z.ltb_spec l (Z.of_nat i)); [apply Hag; lia | reflexivity].
    - destruct (Z.leb_spec l (Z.of_nat j)); [apply Hag; lia | reflexivity]. }
  unfold lu_sweep.
  rewrite -(@partial_product_LU F k (Z.of_nat (Z.to_nat (m - 1)))
              (lu_steps (Z.to_nat (m - 1)) a) (Z.of_nat i) (Z.of_nat j)
              ltac:(lia) ltac:(lia) ltac:(lia)).
  symmetry. apply partial_product_steps; try lia.
  intros s Hs Hsi Hjs.
  apply (@pivots_nonzero F (Z.of_nat k - 1) (Z.of_nat k - 1) a); [|lia].
  intros k' Hk'. apply Hminor. lia.
Qed.

(** X13. The determinant is on the diagonal of the result.  Over a
    field, for [k <= min(m, n)], when the leading principal minors of
    the orders below [k] are not zero, the leading principal minor of
    order [k] of the input is the product of the first [k] diagonal
    entries of the returned buffer; for a square matrix and [k = n]
    this is [det A]. *)
Theorem diagonal_product_is_minor (NRMAX NCMAX NCU : Z)
    (junkA junkP : Z -> Z -> Z -> F) (m n : Z) (A : list F) (lda info : Z)
    (k : nat) :
  template_ok NRMAX NCMAX NCU ->
  m <= NRMAX -> n <= NCMAX -> m <= NCMAX + 1 -> n <= lda ->
  ext_ok m n lda A -> Z.of_nat k <= Z.min m n ->
  (forall k' : nat, 1 <= Z.of_nat k' < Z.of_nat k ->
     leading_minor k' (ext_fun 0%R lda A) <> 0%R) ->
  exists A',
    getrf_nopivot NRMAX NCMAX NCU junkA junkP m n A lda info = Some (A', info) /\
    leading_minor k (ext_fun 0%R lda A) =
    (\prod_(i < k) ext_fun 0%R lda A' (Z.of_nat i) (Z.of_nat i))%R.
Proof.
  intros Hok Hm Hn Hmc Hlda Hext Hk Hminor.
  destruct (@getrf_nopivot_spec _ _ NRMAX NCMAX NCU junkA junkP m n A lda info
              0%R Hok Hm Hn Hmc Hext)
    as [A' [Hrun [_ [_ Hval]]]].
  exists A'. split; [exact Hrun|].
  apply leading_minor_LU.
  apply (@leading_block_factors m n k); auto.
  intros r c Hr Hc. unfold ext_fun at 1.
  replace (lda * r + c) with (r * lda + c) by lia.
  now rewrite (Hval (@rows_disjoint_lda m n lda Hlda) r c Hr Hc).
Qed.

(** X14. No zero on the diagonal of [U].  Over a field, when the
    leading principal minors of the input are not zero, every diagonal
    entry of the returned buffer is nonzero: no division of the sweep
    had a zero divisor, and [U] has full rank. *)
Theorem result_diagonal_nonzero (NRMAX NCMAX NCU : Z)
    (junkA junkP : Z -> Z -> Z -> F) (m n : Z) (A : list F) (lda info : Z) :
  template_ok NRMAX NCMAX NCU ->
  m <= NRMAX -> n <= NCMAX -> m <= NCMAX + 1 -> n <= lda ->
  ext_ok m n lda A ->
  (forall k : nat, 1 <= Z.of_nat k <= Z.min m n ->
     leading_minor k (ext_fun 0%R lda A) <> 0%R) ->
  exists A',
    getrf_nopivot NRMAX NCMAX NCU junkA junkP m n A lda info = Some (A', info) /\
    forall i, 0 <= i < Z.min m n -> ext_fun 0%R lda A' i i <> 0%R.
Proof.
  intros Hok Hm Hn Hmc Hlda Hext Hminor.
  destruct (@getrf_nopivot_spec _ _ NRMAX NCMAX NCU junkA junkP m n A lda info
              0%R Hok Hm Hn Hmc Hext)
    as [A' [Hrun [_ [_ Hval]]]].
  exists A'. split; [exact Hrun|]. intros i Hi.
  unfold ext_fun at 1. replace (lda * i + i) with (i * lda + i) by lia.
  rewrite (Hval (@rows_disjoint_lda m n lda Hlda) i i ltac:(lia) ltac:(lia)).
  unfold lu_sweep.
  rewrite (@lu_steps_row _ _ (Z.to_nat (m - 1)) (ext_fun 0%R lda A) i i); [lia|].
  pose proof (@pivots_nonzero F m n (ext_fun 0%R lda A) Hminor (Z.to_nat i)
                ltac:(lia)) as Hp.
  rewrite Z2Nat.id in Hp; [lia|]. exact Hp.
Qed.

End FieldProperties.

Lemma Aq_ext_ok : ext_ok 2 2 2 Aq.
Proof. intros r c Hr Hc. change (len Aq) with 4. lia. Qed.


Lemma diagonal_product_is_minor_witness :
  exists A',
    getrf_nopivot 2 2 1 (fun _ _ _ => 0%R) (fun _ _ _ => 0%R) 2 2 Aq 2 0
      = Some (A', 0) /\
    leading_minor 2 (ext_fun (0%R : rat) 2 Aq) =
    (\prod_(i < 2) ext_fun (0%R : rat) 2 A' (Z.of_nat i) (Z.of_nat i))%R.
Proof.
  apply (@diagonal_product_is_minor rat 2 2 1); try lia.
  - template.
  - exact Aq_ext_ok.
  - intros k Hk. apply unit_factors_minors; [reflexivity | lia].
Defined.

Lemma result_diagonal_nonzero_witness :
  exists A',
    getrf_nopivot 2 2 1 (fun _ _ _ => 0%R) (fun _ _ _ => 0%R) 2 2 Aq 2 0
      = Some (A', 0) /\
    forall i, 0 <= i < Z.min 2 2 -> ext_fun (0%R : rat) 2 A' i i <> 0%R.
Proof.
  apply (@result_diagonal_nonzero rat 2 2 1); try lia.
  - template.
  - exact Aq_ext_ok.
  - intros k Hk. apply unit_factors_minors; [reflexivity | lia].
Defined.

(** ** The template parameters *)

Section TemplateProperties.

Context {T : Type} {ST : Scalar T}.

(** X16. The size of the template instance shows in one bound only.
    Two template instances that both hold the matrix
    ([m <= NRMAX], [n <= NCMAX], [NRMAX * NCMAX < 2^31]) and both keep
    the sweep inside their arrays ([m <= NCMAX + 1]) have the same
    outcome, whatever their sizes, lane counts and uninitialised
    contents.  When only the second one keeps the sweep inside its
    arrays, it returns a buffer and the first one has no defined
    result. *)
Theorem template_size_invariance (NRMAX1 NCMAX1 NCU1 NRMAX2 NCMAX2 NCU2 : Z)
    (junkA1 junkP1 junkA2 junkP2 : Z -> Z -> Z -> T)
    (m n : Z) (A : list T) (lda info : Z) :
  template_ok NRMAX1 NCMAX1 NCU1 -> template_ok NRMAX2 NCMAX2 NCU2 ->
  m <= NRMAX1 -> m <= NRMAX2 -> n <= NCMAX1 -> n <= NCMAX2 ->
  m <= NCMAX2 + 1 ->
  (m <= NCMAX1 + 1 ->
   getrf_nopivot NRMAX1 NCMAX1 NCU1 junkA1 junkP1 m n A lda info =
   getrf_nopivot NRMAX2 NCMAX2 NCU2 junkA2 junkP2 m n A lda info) /\
  (NCMAX1 + 2 <= m -> ext_ok m n lda A ->
   getrf_nopivot NRMAX1 NCMAX1 NCU1 junkA1 junkP1 m n A lda info = None /\
   exists A',
     getrf_nopivot NRMAX2 NCMAX2 NCU2 junkA2 junkP2 m n A lda info
       = Some (A', info)).
Proof.
  intros Hok1 Hok2 Hm1 Hm2 Hn1 Hn2 Hmc2. split.
  - intros Hmc1. apply getrf_nopivot_indep; auto. tauto.
  - intros Hmc1 Hext. split.
    + destruct Hok1 as [_ [_ [HC _]]].
      apply getrf_nopivot_out_of_bounds; auto.
    + destruct (@getrf_nopivot_spec _ _ NRMAX2 NCMAX2 NCU2 junkA2 junkP2 m n A
                  lda info (junkA2 0 0 0) Hok2 Hm2 Hn2 Hmc2 Hext)
        as [A' [Hrun _]].
      now exists A'.
Qed.

End TemplateProperties.

Lemma template_size_invariance_witness :
  getrf_nopivot 3 3 1 zeroQ zeroQ 3 3 A3 3 0 =
  getrf_nopivot 8 4 2 sevenQ sevenQ 3 3 A3 3 0.
Proof.
  apply (proj1 (@template_size_invariance Qc _ 3 3 1 8 4 2 zeroQ zeroQ
                  sevenQ sevenQ 3 3 A3 3 0 ltac:(template) ltac:(template)
                  ltac:(lia) ltac:(lia) ltac:(lia) ltac:(lia) ltac:(lia))).
  lia.
Defined.
